(** * jang: Poisson likelihoods, priors and posterior aggregation

    A shallow embedding of [jang/stats/likelihoods.py], [jang/stats/priors.py],
    [jang/stats/posteriors.py] and of the grid set-up of [jang/limits.py].

    NumPy's float64 values are idealised as extended reals: a finite real,
    plus or minus infinity, or NaN.  The special values and the way they
    propagate are modelled; rounding, overflow and underflow of finite values
    and the sign of a zero are not: the results below are results on the
    formulas the code evaluates, read over the reals.  NumPy is taken as of
    version 1.24 or later. *)

From Stdlib Require Import String Ascii.
From Stdlib Require Import Reals Lra Lia ZArith List Bool Permutation.
Import ListNotations.

Open Scope R_scope.

(** ** Extended reals: the values a float64 cell can hold *)

Inductive xreal : Type :=
| Fin (r : R)
| PInf
| NInf
| NaN.

Definition ndarray : Type := list xreal.

Module X.

Definition neg (a : xreal) : xreal :=
  match a with
  | Fin r => Fin (- r)
  | PInf => NInf
  | NInf => PInf
  | NaN => NaN
  end.

Definition add (a b : xreal) : xreal :=
  match a, b with
  | NaN, _ | _, NaN => NaN
  | Fin x, Fin y => Fin (x + y)
  | PInf, NInf | NInf, PInf => NaN
  | PInf, _ | _, PInf => PInf
  | NInf, _ | _, NInf => NInf
  end.

Definition sub (a b : xreal) : xreal := add a (neg b).

(** An infinity scaled by a finite factor: the sign decides, zero gives NaN. *)
Definition scale_inf (r : R) (pos : xreal) : xreal :=
  if Rlt_dec 0 r then pos
  else if Rlt_dec r 0 then neg pos
  else NaN.

Definition mul (a b : xreal) : xreal :=
  match a, b with
  | NaN, _ | _, NaN => NaN
  | Fin x, Fin y => Fin (x * y)
  | Fin x, PInf | PInf, Fin x => scale_inf x PInf
  | Fin x, NInf | NInf, Fin x => scale_inf x NInf
  | PInf, PInf | NInf, NInf => PInf
  | PInf, NInf | NInf, PInf => NaN
  end.

Definition div (a b : xreal) : xreal :=
  match a, b with
  | NaN, _ | _, NaN => NaN
  | Fin x, Fin y =>
      if Req_dec_T y 0 then scale_inf x PInf else Fin (x / y)
  | Fin _, (PInf | NInf) => Fin 0
  | PInf, Fin y => if Rlt_dec y 0 then NInf else PInf
  | NInf, Fin y => if Rlt_dec y 0 then PInf else NInf
  | (PInf | NInf), (PInf | NInf) => NaN
  end.

(** [np.log] *)
Definition log (a : xreal) : xreal :=
  match a with
  | Fin x => if Rlt_dec 0 x then Fin (ln x)
             else if Rlt_dec x 0 then NaN else NInf
  | PInf => PInf
  | NInf | NaN => NaN
  end.

(** [np.exp] *)
Definition exp (a : xreal) : xreal :=
  match a with
  | Fin x => Fin (Rtrigo_def.exp x)
  | PInf => PInf
  | NInf => Fin 0
  | NaN => NaN
  end.

(** [np.sqrt] *)
Definition sqrt (a : xreal) : xreal :=
  match a with
  | Fin x => if Rlt_dec x 0 then NaN else Fin (R_sqrt.sqrt x)
  | PInf => PInf
  | NInf | NaN => NaN
  end.

(** The comparison [a > 0]; false on NaN. *)
Definition gt0 (a : xreal) : bool :=
  match a with
  | Fin x => if Rlt_dec 0 x then true else false
  | PInf => true
  | NInf | NaN => false
  end.

(** [a >= 0] as a proposition: a finite non-negative real or plus infinity. *)
Definition nonneg (a : xreal) : Prop :=
  match a with
  | Fin x => 0 <= x
  | PInf => True
  | NInf | NaN => False
  end.

End X.

(** Elementwise binary operation on two arrays of one shape. *)
Fixpoint map2 {A B C : Type} (f : A -> B -> C) (l : list A) (m : list B) : list C :=
  match l, m with
  | a :: l', b :: m' => f a b :: map2 f l' m'
  | _, _ => []
  end.

(** [zip(a, b, c)]: stops at the shortest argument. *)
Fixpoint zip3 {A B C : Type} (a : list A) (b : list B) (c : list C) : list (A * B * C) :=
  match a, b, c with
  | x :: a', y :: b', z :: c' => (x, y, z) :: zip3 a' b' c'
  | _, _, _ => []
  end.

Definition zeros_like (var : ndarray) : ndarray := map (fun _ => Fin 0) var.
Definition ones_like (var : ndarray) : ndarray := map (fun _ => Fin 1) var.

(** ** likelihoods.py *)

(** [scipy.special.gammaln] at an integer argument: [ln((z-1)!)] for [z >= 1],
    plus infinity at the poles [z <= 0]. *)
Definition gammaln (z : Z) : xreal :=
  if (0 <? z)%Z then Fin (ln (INR (fact (Z.to_nat (z - 1))))) else PInf.

(** [np.where(cond, a, -np.inf)] *)
Definition where_else_neginf (cond : list bool) (a : ndarray) : ndarray :=
  map2 (fun (c : bool) x => if c then x else NInf) cond a.

Definition logpoisson_one_sample
  (nobserved : Z) (nbackground conv : xreal) (var : ndarray) : ndarray :=
  let nexpected := map (fun v => X.add (X.mul conv v) nbackground) var in
  let loglkl :=
    where_else_neginf
      (map X.gt0 nexpected)
      (map (fun ne =>
              X.sub (X.add (X.neg ne) (X.mul (Fin (IZR nobserved)) (X.log ne)))
                    (gammaln (nobserved + 1)))
           nexpected) in
  loglkl.

Definition poisson_several_samples
  (nobserved : list Z) (nbackground conv : ndarray) (var : ndarray) : ndarray :=
  let loglkl :=
    fold_left
      (fun loglkl '(n_obs, n_bkg, cv) =>
         map2 X.add loglkl (logpoisson_one_sample n_obs n_bkg cv var))
      (zip3 nobserved nbackground conv)
      (zeros_like var) in
  map X.exp loglkl.

(** *** Point-source likelihood

    [Sample] and its event list live in [jang.neutrinos], outside the files
    embedded here; the record below holds what [logpointsource_one_sample]
    reads from a sample: the optional event list and, per hypothesis, the
    optional angular, energy and time densities.  The signal's angular density
    takes the source direction; its time density is called either with the
    event alone or with the pair [(t0, sigma_t)]. *)

Section PointSource.

Variable Event : Type.

Record SignalPdfs : Type := {
  sig_ang : option (Event -> xreal -> xreal -> xreal);
  sig_ene : option (Event -> xreal);
  sig_time : option (Event -> option (xreal * xreal) -> xreal)
}.

Record BackgroundPdfs : Type := {
  bkg_ang : option (Event -> xreal);
  bkg_ene : option (Event -> xreal);
  bkg_time : option (Event -> xreal)
}.

Record Sample : Type := {
  events : option (list Event);
  pdfs_signal : SignalPdfs;
  pdfs_background : BackgroundPdfs
}.

(** A Python dict with string keys, as [other_var]. *)
Definition dict : Type := list (string * xreal).

Fixpoint dict_get (d : dict) (k : string) : option xreal :=
  match d with
  | [] => None
  | (k', v) :: d' => if String.eqb k k' then Some v else dict_get d' k
  end.

(** [(other_var is not None) and ("t0" in other_var and "sigma_t" in other_var)],
    together with the two values read when it holds. *)
Definition var_time (other_var : option dict) : option (xreal * xreal) :=
  match other_var with
  | None => None
  | Some d =>
      match dict_get d "t0", dict_get d "sigma_t" with
      | Some t0, Some sigma_t => Some (t0, sigma_t)
      | _, _ => None
      end
  end.

(** The factors [ll *= ...] applied for one event, in source order; an absent
    density applies none. *)
Definition present (fs : list (option xreal)) : list xreal :=
  flat_map (fun f => match f with Some x => [x] | None => [] end) fs.

Definition signal_factors (p : SignalPdfs) (evt : Event)
  (ra_src dec_src : xreal) (vt : option (xreal * xreal)) : list xreal :=
  present [ option_map (fun f => f evt ra_src dec_src) (sig_ang p);
            option_map (fun f => f evt) (sig_ene p);
            option_map (fun f => f evt vt) (sig_time p) ].

Definition background_factors (p : BackgroundPdfs) (evt : Event) : list xreal :=
  present [ option_map (fun f => f evt) (bkg_ang p);
            option_map (fun f => f evt) (bkg_ene p);
            option_map (fun f => f evt) (bkg_time p) ].

(** One turn of the loop over events.  [ll = locals()["nsignal"]] is the
    array [nsignal] itself, so [ll *= ...] multiplies [nsignal] in place and
    the next event starts from the scaled array: [nsignal] is threaded as
    state.  [nbackground] is a float, [ll *= ...] rebinds a local only. *)
Definition event_step (s : Sample) (nbackground ra_src dec_src : xreal)
  (vt : option (xreal * xreal)) (st : ndarray * ndarray) (evt : Event)
  : ndarray * ndarray :=
  let '(nsignal, loglkl) := st in
  let nsignal' :=
    fold_left (fun ll f => map (fun x => X.mul x f) ll)
      (signal_factors (pdfs_signal s) evt ra_src dec_src vt) nsignal in
  let l := map (fun x => X.add (Fin 0) x) nsignal' in
  let ll_bkg :=
    fold_left X.mul (background_factors (pdfs_background s) evt) nbackground in
  let l := map (fun x => X.add x ll_bkg) l in
  (nsignal', map2 X.add loglkl (map X.log l)).

Definition logpointsource_one_sample
  (sample : Sample) (nobserved : Z) (nbackground conv ra_src dec_src : xreal)
  (var : ndarray) (other_var : option dict) : ndarray :=
  match events sample with
  | None => logpoisson_one_sample nobserved nbackground conv var
  | Some evts =>
      let nsignal := map (fun v => X.mul conv v) var in
      let nexpected := map (fun ns => X.add nbackground ns) nsignal in
      let loglkl :=
        where_else_neginf
          (map X.gt0 nexpected)
          (map (fun ne => X.sub (X.neg ne) (gammaln (nobserved + 1))) nexpected) in
      let has_var_time := var_time other_var in
      snd (fold_left
             (event_step sample nbackground ra_src dec_src has_var_time)
             evts (nsignal, loglkl))
  end.

Definition pointsource_several_samples
  (samples : list Sample) (nobserved : list Z) (nbackground conv : ndarray)
  (ra_src dec_src : xreal) (var : ndarray) (other_var : option dict) : ndarray :=
  let loglkl :=
    fold_left
      (fun loglkl '(n_obs, n_bkg, cv, s) =>
         map2 X.add loglkl
           (logpointsource_one_sample s n_obs n_bkg cv ra_src dec_src var other_var))
      (combine (zip3 nobserved nbackground conv) samples)
      (zeros_like var) in
  map X.exp loglkl.

End PointSource.

Arguments events {Event} _.
Arguments pdfs_signal {Event} _.
Arguments pdfs_background {Event} _.
Arguments logpointsource_one_sample {Event} _ _ _ _ _ _ _ _.

(** ** Exceptions *)

Inductive exn : Type :=
| RuntimeError (msg : string)
| IndexError
| ValueError.

Inductive result (A : Type) : Type :=
| Ok (a : A)
| Raise (e : exn).

Arguments Ok {A} _.
Arguments Raise {A} _.

Definition bind {A B : Type} (r : result A) (k : A -> result B) : result B :=
  match r with
  | Ok a => k a
  | Raise e => Raise e
  end.

Notation "x <- r ;; k" := (bind r (fun x => k))
  (at level 61, r at next level, right associativity).

(** ** priors.py *)

(** What a prior hands back: a NumPy scalar or a one-dimensional array. *)
Inductive npval : Type :=
| Scalar (x : xreal)
| Array (a : ndarray).

(** The entries of a list that holds scalars only, and the rows of a list
    that holds arrays of length [n] only. *)
Fixpoint scalars_of (tmp : list npval) : option (list xreal) :=
  match tmp with
  | [] => Some []
  | Scalar x :: rest => option_map (cons x) (scalars_of rest)
  | Array _ :: _ => None
  end.

Fixpoint arrays_of (n : nat) (tmp : list npval) : option (list ndarray) :=
  match tmp with
  | [] => Some []
  | Array a :: rest =>
      if Nat.eqb (length a) n then option_map (cons a) (arrays_of n rest)
      else None
  | Scalar _ :: _ => None
  end.

(** [np.sum(tmp, axis=0)] on a Python list, as NumPy 1.24 and later do it:
    the list is first made an array.  A list of arrays of one length gives
    their column sums, a list of numbers gives their sum as a scalar, the
    empty list gives the scalar [0].  A list that mixes arrays with numbers,
    or arrays of different lengths, is ragged: building the array raises
    [ValueError] (inhomogeneous shape).  (NumPy before 1.24 built an object
    array from such a list, with a deprecation warning, and added the entries
    with broadcasting.) *)
Definition np_sum_axis0 (tmp : list npval) : result npval :=
  match tmp with
  | [] => Ok (Scalar (Fin 0))
  | Scalar x :: rest =>
      match scalars_of rest with
      | Some xs => Ok (Scalar (fold_left X.add xs x))
      | None => Raise ValueError
      end
  | Array a :: rest =>
      match arrays_of (length a) rest with
      | Some rows => Ok (Array (fold_left (map2 X.add) rows a))
      | None => Raise ValueError
      end
  end.

Definition np_sqrt (w : npval) : npval :=
  match w with
  | Scalar x => Scalar (X.sqrt x)
  | Array a => Array (map X.sqrt a)
  end.

(** The value a scalar or an array contributes at grid index [j]. *)
Definition np_at (w : npval) (j : nat) : xreal :=
  match w with
  | Scalar x => x
  | Array a => nth j a NaN
  end.

Definition flat (var : ndarray) : ndarray := ones_like var.

Definition invsqrt (var : ndarray) : ndarray :=
  map (fun v => X.div (Fin 1) (X.sqrt v)) var.

(** The list [tmp] of [jeffrey_poisson]: one entry per index of [bkg];
    [conv[i]] raises [IndexError] when [conv] is shorter than [bkg]. *)
Fixpoint jeffrey_tmp (var bkg conv : ndarray) : result (list npval) :=
  match bkg with
  | [] => Ok []
  | bkg_i :: bkg' =>
      match conv with
      | [] => Raise IndexError
      | conv_i :: conv' =>
          let entry :=
            if X.gt0 conv_i
            then Array (map (fun v =>
                               X.div (X.mul conv_i conv_i)
                                     (X.add (X.mul conv_i v) bkg_i)) var)
            else Scalar (Fin 0) in
          rest <- jeffrey_tmp var bkg' conv' ;;
          Ok (entry :: rest)
      end
  end.

Definition jeffrey_poisson (var bkg conv : ndarray) : result npval :=
  tmp <- jeffrey_tmp var bkg conv ;;
  total <- np_sum_axis0 tmp ;;
  Ok (np_sqrt total).

Definition signal_parameter (var bkg conv : ndarray) (prior_type : string)
  : result npval :=
  if String.eqb prior_type "flat" then Ok (Array (flat var))
  else if String.eqb prior_type "jeffrey" then jeffrey_poisson var bkg conv
  else if String.eqb prior_type "invsqrt" then Ok (Array (invsqrt var))
  else Raise (RuntimeError ("Unknown prior type " ++ prior_type)).

(** ** parameters.py *)

(** A grid range [[min_exponent, max_exponent, count]], an integer array. *)
Definition grid_range : Type := (Z * Z * Z)%type.

(** [r[0:2]] and [r[2]] *)
Definition range_bounds (r : grid_range) : Z * Z := fst r.
Definition range_count (r : grid_range) : Z := snd r.

(** The fields of [Parameters] read by the posteriors and the limits. *)
Record Parameters : Type := {
  prior_signal : string;
  range_flux : grid_range;
  range_etot : grid_range;
  range_fnu : grid_range
}.

(** ** posteriors.py *)

(** [np.linspace(start, stop, num)] on integer arguments. *)
Definition linspace (start stop num : Z) : result (list R) :=
  if (num <? 0)%Z then Raise ValueError
  else
    let n := Z.to_nat num in
    Ok (map (fun i =>
               if Nat.eqb n 1 then IZR start
               else IZR start + INR i * (IZR (stop - start) / INR (n - 1)))
            (seq 0 n)).

(** [np.logspace] on the three entries of a range: base 10 raised to the
    points of [linspace]. *)
Definition logspace (r : grid_range) : result ndarray :=
  let '(start, stop, num) := r in
  y <- linspace start stop num ;;
  Ok (map (fun e => Fin (Rpower 10 e)) y).

(** [a * w] for the likelihood array [a] and a prior [w], and [post += rhs]. *)
Definition np_mul_array (a : ndarray) (w : npval) : ndarray :=
  match w with
  | Scalar x => map (fun y => X.mul y x) a
  | Array b => map2 X.mul a b
  end.

Definition iadd (post rhs : ndarray) : ndarray := map2 X.add post rhs.

Section Posteriors.

(** [Detector], [GW] and [Analysis] are classes of modules outside the files
    embedded here.  A toy is a pair whose second component holds the observed
    and background counts per sample; an analysis gives the toys and the three
    conversion functions. *)
Variables Detector GW GWToy : Type.

Record DetectorToy : Type := {
  nobserved : list Z;
  nbackground : ndarray
}.

Definition Toy : Type := (GWToy * DetectorToy)%type.

Record Analysis : Type := {
  toys : list Toy;
  phi_to_nsig : Toy -> ndarray;
  etot_to_nsig : Toy -> ndarray;
  fnu_to_nsig : Toy -> ndarray
}.

(** The constructor [Analysis(gw=, detector=, parameters=)] and the method
    [add_gw_variables]. *)
Variable mkAnalysis : GW -> Detector -> Parameters -> Analysis.
Variable add_gw_variables : Analysis -> list string -> Analysis.

(** The loop [for toy in ana.toys: post_arr += lkl * prior], shared by the
    three posteriors up to the conversion function. *)
Fixpoint toys_loop (to_nsig : Toy -> ndarray) (prior_type : string)
  (x_arr : ndarray) (ts : list Toy) (post_arr : ndarray) : result ndarray :=
  match ts with
  | [] => Ok post_arr
  | toy :: ts' =>
      let conv := to_nsig toy in
      let lkl :=
        poisson_several_samples
          (nobserved (snd toy)) (nbackground (snd toy)) conv x_arr in
      w <- signal_parameter x_arr (nbackground (snd toy)) conv prior_type ;;
      toys_loop to_nsig prior_type x_arr ts' (iadd post_arr (np_mul_array lkl w))
  end.

Definition compute_flux_posterior
  (detector : Detector) (gw : GW) (parameters : Parameters)
  : result (ndarray * ndarray) :=
  let ana := mkAnalysis gw detector parameters in
  x_arr <- logspace (range_flux parameters) ;;
  post_arr <- toys_loop (phi_to_nsig ana) (prior_signal parameters)
                x_arr (toys ana) (zeros_like x_arr) ;;
  Ok (x_arr, post_arr).

Definition compute_etot_posterior
  (detector : Detector) (gw : GW) (parameters : Parameters)
  : result (ndarray * ndarray) :=
  let ana := mkAnalysis gw detector parameters in
  let ana := add_gw_variables ana ["luminosity_distance"; "theta_jn"]%string in
  x_arr <- logspace (range_etot parameters) ;;
  post_arr <- toys_loop (etot_to_nsig ana) (prior_signal parameters)
                x_arr (toys ana) (zeros_like x_arr) ;;
  Ok (x_arr, post_arr).

Definition compute_fnu_posterior
  (detector : Detector) (gw : GW) (parameters : Parameters)
  : result (ndarray * ndarray) :=
  let ana := mkAnalysis gw detector parameters in
  let ana :=
    add_gw_variables ana
      ["luminosity_distance"; "theta_jn"; "radiated_energy"]%string in
  x_arr <- logspace (range_fnu parameters) ;;
  post_arr <- toys_loop (fnu_to_nsig ana) (prior_signal parameters)
                x_arr (toys ana) (zeros_like x_arr) ;;
  Ok (x_arr, post_arr).

End Posteriors.

Arguments toys {GWToy} _.
Arguments phi_to_nsig {GWToy} _ _.
Arguments etot_to_nsig {GWToy} _ _.
Arguments fnu_to_nsig {GWToy} _ _.
Arguments toys_loop {GWToy} _ _ _ _ _.
Arguments compute_flux_posterior {Detector GW GWToy} _ _ _ _.
Arguments compute_etot_posterior {Detector GW GWToy} _ _ _ _ _.
Arguments compute_fnu_posterior {Detector GW GWToy} _ _ _ _ _.

(** ** limits.py: the grid set-up of the flux limits *)

(** [jang.stats.PosteriorVariable(name, range, nsamples, log=...)]: the class
    is defined outside the files embedded here; the record keeps the
    constructor's arguments. *)
Record PosteriorVariable : Type := {
  pv_name : string;
  pv_range : Z * Z;
  pv_nsamples : Z;
  pv_log : bool
}.

(** The list [variables] built on the first line of [get_limit_flux]. *)
Definition get_limit_flux_variables (parameters : Parameters)
  : list PosteriorVariable :=
  [ {| pv_name := "flux";
       pv_range := range_bounds (range_flux parameters);
       pv_nsamples := range_count (range_flux parameters);
       pv_log := true |} ].

(** The list [variables] built on the first line of
    [get_limit_flux_with_othervars]. *)
Definition get_limit_flux_with_othervars_variables
  (parameters : Parameters) (other_variables : list PosteriorVariable)
  : list PosteriorVariable :=
  [ {| pv_name := "flux";
       pv_range := range_bounds (range_fnu parameters);
       pv_nsamples := range_count (range_fnu parameters);
       pv_log := true |} ] ++ other_variables.

(** The list [variables] built on the first line of [get_limitmap_flux]. *)
Definition get_limitmap_flux_variables (parameters : Parameters)
  : list PosteriorVariable :=
  [ {| pv_name := "flux";
       pv_range := range_bounds (range_flux parameters);
       pv_nsamples := range_count (range_flux parameters);
       pv_log := true |} ].

(** The configuration of [tests/test_examples.py]. *)
Definition test_parameters : Parameters :=
  {| prior_signal := "flat";
     range_flux := (-5, 5, 1000)%Z;
     range_etot := (48, 62, 1400)%Z;
     range_fnu := (-5, 10, 1500)%Z |}.

(** ** parameters.py: the search-region string *)

(** [s.split(sep)] for a one-character separator: the pieces between the
    occurrences of [sep], never an empty list. *)
Fixpoint split_on (sep : ascii) (s : string) : list string :=
  match s with
  | EmptyString => [EmptyString]
  | String c s' =>
      if Ascii.eqb c sep then EmptyString :: split_on sep s'
      else
        match split_on sep s' with
        | [] => [String c EmptyString]
        | w :: ws => String c w :: ws
        end
  end.

(** [get_searchregion_iszeroincluded], as a function of [self.search_region]:
    [spl[-1] == "excludezero"] decides. *)
Definition get_searchregion_iszeroincluded (search_region : string) : bool :=
  let spl := split_on "_" search_region in
  if String.eqb (last spl EmptyString) "excludezero" then false else true.

Section SearchRegion.

(** Python's [float] on a string: a value, or [None] for [ValueError]. *)
Variable float_of_string : string -> option xreal.

(** [get_searchregion_gwfraction], as a function of [self.search_region]:
    the result is a number or [None]. *)
Definition get_searchregion_gwfraction (search_region : string)
  : result (option xreal) :=
  let spl := split_on "_" search_region in
  match spl with
  | s0 :: s1 :: _ =>
      if String.eqb s0 "region" then
        match float_of_string s1 with
        | Some f => Ok (Some (X.div f (Fin 100)))
        | None => Raise ValueError
        end
      else Ok None
  | [s0] =>
      if String.eqb s0 "bestfit" then Ok (Some (Fin 0))
      else if String.eqb s0 "fullsky" then Ok None
      else Ok None
  | [] => Ok None
  end.

End SearchRegion.

(** Whether the character [c] occurs in [s]. *)
Fixpoint occurs (c : ascii) (s : string) : bool :=
  match s with
  | EmptyString => false
  | String c' s' => if Ascii.eqb c' c then true else occurs c s'
  end.

(** [sep.join(l)] *)
Fixpoint join (sep : ascii) (l : list string) : string :=
  match l with
  | [] => EmptyString
  | w :: ws =>
      match ws with
      | [] => w
      | _ :: _ => w ++ String sep (join sep ws)
      end
  end.

(** ** Definitions used to state the results *)

(** The closed form: the Poisson log-likelihood at a real
    expected count, minus infinity where that count is not positive. *)
Definition logpoisson_closed (n : Z) (b c v : R) : xreal :=
  if Rlt_dec 0 (c * v + b)
  then Fin (- (c * v + b) + IZR n * ln (c * v + b) - ln (INR (fact (Z.to_nat n))))
  else NInf.

(** The accumulation loop of [poisson_several_samples]. *)
Definition loglkl_loop (var : ndarray) (samples : list (Z * xreal * xreal))
  (loglkl : ndarray) : ndarray :=
  fold_left
    (fun loglkl '(n_obs, n_bkg, cv) =>
       map2 X.add loglkl (logpoisson_one_sample n_obs n_bkg cv var))
    samples loglkl.

(** A sample with counts only: no event list, no density. *)
Definition counting_sample : Sample unit :=
  {| events := None;
     pdfs_signal := {| sig_ang := None; sig_ene := None; sig_time := None |};
     pdfs_background := {| bkg_ang := None; bkg_ene := None; bkg_time := None |} |}.

(** A value is shaped for a grid of [n] points when it is a scalar or an array
    of length [n]. *)
Definition shaped (n : nat) (w : npval) : Prop :=
  match w with
  | Scalar _ => True
  | Array a => length a = n
  end.

Definition np_nonneg (w : npval) : Prop :=
  match w with
  | Scalar x => X.nonneg x
  | Array a => Forall X.nonneg a
  end.

(** The contract as the specification words it: an array of the grid's length
    with non-negative entries. *)
Definition weighting_array (var : ndarray) (r : result npval) : Prop :=
  exists a, r = Ok (Array a) /\ length a = length var /\ Forall X.nonneg a.

Section AggregationSpec.

Context {GWToy : Type}.

(** The prior weights of the toys, in ensemble order; the first failing call
    of [signal_parameter] decides the exception. *)
Fixpoint prior_weights (to_nsig : Toy GWToy -> ndarray) (prior_type : string)
  (x_arr : ndarray) (ts : list (Toy GWToy)) : result (list npval) :=
  match ts with
  | [] => Ok []
  | toy :: ts' =>
      w <- signal_parameter x_arr (nbackground (snd toy)) (to_nsig toy) prior_type ;;
      ws <- prior_weights to_nsig prior_type x_arr ts' ;;
      Ok (w :: ws)
  end.

(** The posterior at grid index [j] in the specification's words: the plain
    sum over the toys of likelihood times prior weight at that point, no
    per-toy weight and no normalisation. *)
Definition posterior_at (to_nsig : Toy GWToy -> ndarray) (x_arr : ndarray)
  (tws : list (Toy GWToy * npval)) (start : xreal) (j : nat) : xreal :=
  fold_left
    (fun acc '(toy, w) =>
       X.add acc
         (X.mul
            (nth j (poisson_several_samples
                      (nobserved (snd toy)) (nbackground (snd toy))
                      (to_nsig toy) x_arr) NaN)
            (np_at w j)))
    tws start.

Definition aggregate (to_nsig : Toy GWToy -> ndarray) (prior_type : string)
  (r : grid_range) (ts : list (Toy GWToy)) : result (ndarray * ndarray) :=
  x_arr <- logspace r ;;
  ws <- prior_weights to_nsig prior_type x_arr ts ;;
  Ok (x_arr,
      map (posterior_at to_nsig x_arr (combine ts ws) (Fin 0))
        (seq 0 (length x_arr))).

End AggregationSpec.

(** The single-sample log-likelihood at one trial value. *)
Definition logpoisson_at (n : Z) (b c v : xreal) : xreal :=
  let ne := X.add (X.mul c v) b in
  if X.gt0 ne
  then X.sub (X.add (X.neg ne) (X.mul (Fin (IZR n)) (X.log ne))) (gammaln (n + 1))
  else NInf.

(** The summed log-likelihood of a list of samples at one trial value. *)
Definition loglkl_at (samples : list (Z * xreal * xreal)) (start v : xreal) : xreal :=
  fold_left (fun acc '(n, b, c) => X.add acc (logpoisson_at n b c v)) samples start.

(** A log-likelihood value on real input: a finite real or minus infinity. *)
Definition fin_or_ninf (a : xreal) : Prop := a = NInf \/ exists r, a = Fin r.

(** Samples with real backgrounds and conversion factors. *)
Definition real_samples (nobs : list Z) (nbkg conv : list R)
  : list (Z * xreal * xreal) :=
  zip3 nobs (map Fin nbkg) (map Fin conv).

(** The sample [s] with the event list [evts]. *)
Definition with_events {Event : Type} (s : Sample Event) (evts : list Event)
  : Sample Event :=
  {| events := Some evts;
     pdfs_signal := pdfs_signal s;
     pdfs_background := pdfs_background s |}.

(** A sample that carries no density at all. *)
Definition no_density {Event : Type} (s : Sample Event) : Prop :=
  pdfs_signal s = {| sig_ang := None; sig_ene := None; sig_time := None |} /\
  pdfs_background s = {| bkg_ang := None; bkg_ene := None; bkg_time := None |}.

(** The arrays [nsignal] and [loglkl] of [logpointsource_one_sample] on entry
    to the loop over events. *)
Definition pointsource_init (n : Z) (b c : xreal) (var : ndarray)
  : ndarray * ndarray :=
  let nsignal := map (fun v => X.mul c v) var in
  let nexpected := map (fun ns => X.add b ns) nsignal in
  (nsignal,
   where_else_neginf
     (map X.gt0 nexpected)
     (map (fun ne => X.sub (X.neg ne) (gammaln (n + 1))) nexpected)).

(** One observed event, listed without any density. *)
Definition one_bare_event : Sample unit :=
  {| events := Some [tt];
     pdfs_signal := {| sig_ang := None; sig_ene := None; sig_time := None |};
     pdfs_background := {| bkg_ang := None; bkg_ene := None; bkg_time := None |} |}.

(** The exponents of a grid range, as [np.linspace] lays them out. *)
Definition linspace_points (start stop : Z) (n : nat) : list R :=
  map (fun i =>
         if Nat.eqb n 1 then IZR start
         else IZR start + INR i * (IZR (stop - start) / INR (n - 1)))
    (seq 0 n).

(** The prior names [signal_parameter] knows. *)
Definition recognised (prior_type : string) : Prop :=
  prior_type = "flat"%string \/ prior_type = "jeffrey"%string \/
  prior_type = "invsqrt"%string.

(** An analysis over given toys, each with conversion factors [conv]. *)
Definition fixed_analysis (ts : list (Toy unit)) (conv : ndarray)
  : unit -> unit -> Parameters -> Analysis unit :=
  fun _ _ _ =>
    {| toys := ts;
       phi_to_nsig := fun _ => conv;
       etot_to_nsig := fun _ => conv;
       fnu_to_nsig := fun _ => conv |}.

(** Parameters with one range for the three variables. *)
Definition parameters_with (prior_type : string) (r : grid_range) : Parameters :=
  {| prior_signal := prior_type;
     range_flux := r; range_etot := r; range_fnu := r |}.

(** One toy: a count of 0 over a background of 1/2. *)
Definition one_toy : Toy unit :=
  (tt, {| nobserved := [0%Z]; nbackground := [Fin (1 / 2)] |}).

(** The rows of [tmp] when every conversion factor is positive. *)
Definition jeffrey_rows (var bkg conv : list R) : list ndarray :=
  map (fun '(b, c) =>
         map (fun v => X.div (X.mul (Fin c) (Fin c))
                         (X.add (X.mul (Fin c) (Fin v)) (Fin b))) var)
    (combine bkg conv).

(** ** Results on likelihoods.py *)

Lemma map2_map_map {A B C D : Type} (f : B -> C -> D) (g : A -> B) (h : A -> C) l :
  map2 f (map g l) (map h l) = map (fun a => f (g a) (h a)) l.
Proof.
  induction l as [|a l IH]; simpl; [reflexivity | now rewrite IH].
Qed.

Lemma length_map2 {A B C : Type} (f : A -> B -> C) l m :
  length l = length m -> length (map2 f l m) = length l.
Proof.
  revert m; induction l as [|a l IH]; intros [|b m]; simpl; try discriminate; auto.
Qed.

Lemma logpoisson_one_sample_pointwise n b c var :
  logpoisson_one_sample n b c var =
  map (fun v =>
         let ne := X.add (X.mul c v) b in
         if X.gt0 ne
         then X.sub (X.add (X.neg ne) (X.mul (Fin (IZR n)) (X.log ne))) (gammaln (n + 1))
         else NInf) var.
Proof.
  unfold logpoisson_one_sample, where_else_neginf.
  rewrite !map_map, map2_map_map. reflexivity.
Qed.

Lemma length_logpoisson_one_sample n b c var :
  length (logpoisson_one_sample n b c var) = length var.
Proof. rewrite logpoisson_one_sample_pointwise. apply length_map. Qed.

Lemma gammaln_succ (n : Z) :
  (0 <= n)%Z -> gammaln (n + 1) = Fin (ln (INR (fact (Z.to_nat n)))).
Proof.
  intros Hn. unfold gammaln.
  destruct (Z.ltb_spec 0 (n + 1)) as [_|H]; [|lia].
  now replace (n + 1 - 1)%Z with n by lia.
Qed.

Lemma logpoisson_one_sample_real (n : Z) (b c : R) (var : list R) :
  (0 <= n)%Z ->
  logpoisson_one_sample n (Fin b) (Fin c) (map Fin var) =
  map (logpoisson_closed n b c) var.
Proof.
  intros Hn. rewrite logpoisson_one_sample_pointwise, map_map.
  apply map_ext; intros v. cbn zeta.
  rewrite (gammaln_succ n Hn). unfold logpoisson_closed. simpl.
  destruct (Rlt_dec 0 (c * v + b)) as [Hpos|Hnpos]; reflexivity.
Qed.

(** C1: for every integer [nobserved >= 0], real background, real conversion
    factor and real grid, [logpoisson_one_sample] is, at every grid point [v],
    [-(conv*v + nbackground) + nobserved*ln(conv*v + nbackground) - ln(nobserved!)]
    when [conv*v + nbackground > 0] and minus infinity otherwise. *)
Theorem logpoisson_one_sample_spec (n : Z) (b c : R) (var : list R) :
  (0 <= n)%Z ->
  logpoisson_one_sample n (Fin b) (Fin c) (map Fin var) =
  map (fun v =>
         if Rlt_dec 0 (c * v + b)
         then Fin (- (c * v + b) + IZR n * ln (c * v + b)
                   - ln (INR (fact (Z.to_nat n))))
         else NInf) var.
Proof. exact (logpoisson_one_sample_real n b c var). Qed.

Lemma logpoisson_one_sample_spec_witness :
  logpoisson_one_sample 2 (Fin 1) (Fin 3) (map Fin [0; 1]) =
  map (fun v =>
         if Rlt_dec 0 (3 * v + 1)
         then Fin (- (3 * v + 1) + 2 * ln (3 * v + 1)
                   - ln (INR (fact (Z.to_nat 2))))
         else NInf) [0; 1].
Proof. apply (logpoisson_one_sample_spec 2 1 3 [0; 1]). lia. Defined.

(** *** The multi-sample likelihood is a product *)

(** [np.exp] turns sums into products, special values included. *)
Lemma exp_add (a b : xreal) : X.exp (X.add a b) = X.mul (X.exp a) (X.exp b).
Proof.
  destruct a as [x| | |], b as [y| | |]; simpl; try reflexivity;
    unfold X.scale_inf;
    try (destruct (Rlt_dec 0 (Rtrigo_def.exp x)) as [_|H];
         [reflexivity | exfalso; apply H, exp_pos]);
    try (destruct (Rlt_dec 0 (Rtrigo_def.exp y)) as [_|H];
         [reflexivity | exfalso; apply H, exp_pos]);
    try (f_equal; lra).
  - f_equal. apply exp_plus.
  - destruct (Rlt_dec 0 0); [lra|]. reflexivity.
  - destruct (Rlt_dec 0 0); [lra|]. reflexivity.
Qed.

Lemma nth_map2 {A B C : Type} (f : A -> B -> C) l m j da db dc :
  (j < length l)%nat -> length l = length m ->
  nth j (map2 f l m) dc = f (nth j l da) (nth j m db).
Proof.
  revert m j; induction l as [|a l IH]; intros [|b m] [|j]; simpl;
    intros Hj Hlen; try lia; try discriminate; auto.
  apply IH; lia.
Qed.

Lemma nth_map_in {A B : Type} (f : A -> B) l j da db :
  (j < length l)%nat -> nth j (map f l) db = f (nth j l da).
Proof.
  intros Hj. rewrite (nth_indep _ db (f da)) by (now rewrite length_map).
  apply map_nth.
Qed.

Lemma length_loglkl_loop var samples loglkl :
  length loglkl = length var ->
  length (loglkl_loop var samples loglkl) = length var.
Proof.
  revert loglkl; induction samples as [|[[n b] c] samples IH]; intros acc Hacc;
    simpl; [exact Hacc|].
  apply IH. rewrite length_map2; [exact Hacc|].
  now rewrite length_logpoisson_one_sample.
Qed.

Lemma exp_loglkl_loop_nth var samples loglkl j :
  (j < length var)%nat -> length loglkl = length var ->
  nth j (map X.exp (loglkl_loop var samples loglkl)) NaN =
  fold_left
    (fun acc '(n, b, c) =>
       X.mul acc (nth j (map X.exp (logpoisson_one_sample n b c var)) NaN))
    samples (nth j (map X.exp loglkl) NaN).
Proof.
  intros Hj. revert loglkl.
  induction samples as [|[[n b] c] samples IH]; intros acc Hacc;
    [reflexivity|].
  change (loglkl_loop var ((n, b, c) :: samples) acc)
    with (loglkl_loop var samples
            (map2 X.add acc (logpoisson_one_sample n b c var))).
  rewrite IH.
  - cbn [fold_left]. f_equal.
    assert (Hlp := length_logpoisson_one_sample n b c var).
    rewrite (nth_map_in X.exp _ j NaN) by (rewrite length_map2; lia).
    rewrite (nth_map2 X.add _ _ j NaN NaN) by lia.
    rewrite exp_add.
    rewrite <- (nth_map_in X.exp acc j NaN NaN) by lia.
    rewrite <- (nth_map_in X.exp (logpoisson_one_sample n b c var) j NaN NaN) by lia.
    reflexivity.
  - rewrite length_map2; [exact Hacc|].
    now rewrite length_logpoisson_one_sample.
Qed.

Lemma nth_ones_like var j :
  (j < length var)%nat -> nth j (map X.exp (zeros_like var)) NaN = Fin 1.
Proof.
  intros Hj. unfold zeros_like. rewrite map_map.
  rewrite (nth_map_in _ var j NaN) by exact Hj.
  simpl. now rewrite exp_0.
Qed.

(** C4: at every grid point, [poisson_several_samples] is the product over the
    samples (as zipped from the three per-sample arrays) of the single-sample
    likelihoods [exp(logpoisson_one_sample)] at that point. *)
Theorem poisson_several_samples_product
  (nobserved : list Z) (nbackground conv var : ndarray) (j : nat) :
  (j < length var)%nat ->
  nth j (poisson_several_samples nobserved nbackground conv var) NaN =
  fold_left
    (fun acc '(n, b, c) =>
       X.mul acc (nth j (map X.exp (logpoisson_one_sample n b c var)) NaN))
    (zip3 nobserved nbackground conv) (Fin 1).
Proof.
  intros Hj. unfold poisson_several_samples.
  change (fold_left _ (zip3 nobserved nbackground conv) (zeros_like var))
    with (loglkl_loop var (zip3 nobserved nbackground conv) (zeros_like var)).
  rewrite exp_loglkl_loop_nth.
  - now rewrite nth_ones_like.
  - exact Hj.
  - apply length_map.
Qed.

Lemma poisson_several_samples_product_witness :
  nth 1 (poisson_several_samples [1%Z; 0%Z] [Fin 1; Fin 2] [Fin 1; Fin 3]
           [Fin 0; Fin 1; Fin 2]) NaN =
  fold_left
    (fun acc '(n, b, c) =>
       X.mul acc
         (nth 1 (map X.exp (logpoisson_one_sample n b c [Fin 0; Fin 1; Fin 2])) NaN))
    (zip3 [1%Z; 0%Z] [Fin 1; Fin 2] [Fin 1; Fin 3]) (Fin 1).
Proof.
  apply (poisson_several_samples_product
           [1%Z; 0%Z] [Fin 1; Fin 2] [Fin 1; Fin 3] [Fin 0; Fin 1; Fin 2] 1).
  simpl. lia.
Defined.

(** C10: with zero samples the loop body never runs and the result is
    [exp(0) = 1] at every grid point. *)
Theorem poisson_several_samples_no_sample (var : ndarray) :
  poisson_several_samples [] [] [] var = ones_like var.
Proof.
  unfold poisson_several_samples, zeros_like, ones_like. simpl.
  rewrite map_map. apply map_ext; intros _. simpl. now rewrite exp_0.
Qed.

(** *** The closed-form Poisson probability at trial value 0 *)

Lemma exp_INR_ln (k : nat) (b : R) :
  0 < b -> Rtrigo_def.exp (INR k * ln b) = b ^ k.
Proof.
  intros Hb. induction k as [|k IH].
  - simpl. rewrite Rmult_0_l. apply exp_0.
  - rewrite S_INR, Rmult_plus_distr_r, Rmult_1_l, exp_plus, IH, exp_ln by exact Hb.
    simpl. apply Rmult_comm.
Qed.

Lemma poisson_closed_form (k : nat) (b : R) :
  0 < b ->
  Rtrigo_def.exp (- b + INR k * ln b - ln (INR (fact k))) =
  b ^ k * Rtrigo_def.exp (- b) / INR (fact k).
Proof.
  intros Hb.
  assert (Hf : 0 < INR (fact k)) by apply INR_fact_lt_0.
  unfold Rminus. rewrite exp_plus, exp_plus.
  rewrite (exp_Ropp (ln (INR (fact k)))), exp_ln by exact Hf.
  rewrite exp_INR_ln by exact Hb.
  unfold Rdiv. rewrite (Rmult_comm (Rtrigo_def.exp (- b))). reflexivity.
Qed.

(** C5: for [n >= 0] and [b > 0], whatever the (real) conversion factor, the
    single-sample likelihood at trial value 0 is [b^n * exp(-b) / n!]. *)
Theorem poisson_at_zero_closed_form (n : Z) (b conv : R) :
  (0 <= n)%Z -> 0 < b ->
  map X.exp (logpoisson_one_sample n (Fin b) (Fin conv) [Fin 0]) =
  [Fin (b ^ Z.to_nat n * Rtrigo_def.exp (- b) / INR (fact (Z.to_nat n)))].
Proof.
  intros Hn Hb.
  change [Fin 0] with (map Fin [0]).
  rewrite (logpoisson_one_sample_real n b conv [0] Hn). simpl.
  unfold logpoisson_closed.
  replace (conv * 0 + b) with b by lra.
  destruct (Rlt_dec 0 b) as [_|H]; [|contradiction].
  simpl. do 2 f_equal.
  rewrite <- (Z2Nat.id n Hn) at 1. rewrite <- INR_IZR_INZ.
  now apply poisson_closed_form.
Qed.

Lemma poisson_at_zero_closed_form_witness :
  map X.exp (logpoisson_one_sample 2 (Fin 3) (Fin 5) [Fin 0]) =
  [Fin (3 ^ Z.to_nat 2 * Rtrigo_def.exp (- 3) / INR (fact (Z.to_nat 2)))].
Proof. apply (poisson_at_zero_closed_form 2 3 5); [lia | lra]. Defined.

(** *** Samples without an event list *)

(** C8: for a sample whose event list is absent, [logpointsource_one_sample]
    returns the array [logpoisson_one_sample] returns on the same observed
    count, background, conversion factor and grid, whatever the source
    direction and [other_var]. *)
Theorem logpointsource_without_events
  {Event : Type} (sample : Sample Event) (nobserved : Z)
  (nbackground conv ra_src dec_src : xreal) (var : ndarray)
  (other_var : option dict) :
  events sample = None ->
  logpointsource_one_sample sample nobserved nbackground conv ra_src dec_src
    var other_var =
  logpoisson_one_sample nobserved nbackground conv var.
Proof.
  intros Hev. unfold logpointsource_one_sample. now rewrite Hev.
Qed.

Lemma logpointsource_without_events_witness :
  logpointsource_one_sample counting_sample 1 (Fin 2) (Fin 3) (Fin 0) (Fin 0)
    [Fin 1; Fin 2] (Some [("t0"%string, Fin 0); ("sigma_t"%string, Fin 1)]) =
  logpoisson_one_sample 1 (Fin 2) (Fin 3) [Fin 1; Fin 2].
Proof.
  apply (logpointsource_without_events counting_sample 1 (Fin 2) (Fin 3)
           (Fin 0) (Fin 0) [Fin 1; Fin 2]).
  reflexivity.
Defined.

(** ** Results on priors.py *)

(** C7: a [prior_type] other than the three recognised names makes
    [signal_parameter] raise [RuntimeError] (no value is returned); each
    recognised name dispatches to its prior function. *)
Theorem signal_parameter_dispatch (var bkg conv : ndarray) (prior_type : string) :
  (prior_type <> "flat"%string -> prior_type <> "jeffrey"%string ->
   prior_type <> "invsqrt"%string ->
   signal_parameter var bkg conv prior_type =
   Raise (RuntimeError ("Unknown prior type " ++ prior_type))) /\
  signal_parameter var bkg conv "flat" = Ok (Array (flat var)) /\
  signal_parameter var bkg conv "jeffrey" = jeffrey_poisson var bkg conv /\
  signal_parameter var bkg conv "invsqrt" = Ok (Array (invsqrt var)).
Proof.
  repeat split; try reflexivity.
  intros Hf Hj Hi. unfold signal_parameter.
  apply String.eqb_neq in Hf, Hj, Hi. now rewrite Hf, Hj, Hi.
Qed.

Lemma signal_parameter_dispatch_witness :
  signal_parameter [Fin 1] [Fin 1] [Fin 1] "gaussian" =
  Raise (RuntimeError "Unknown prior type gaussian").
Proof.
  apply (proj1 (signal_parameter_dispatch [Fin 1] [Fin 1] [Fin 1] "gaussian"));
    discriminate.
Defined.

(** *** The sum over the list of per-sample entries *)

Lemma scalars_of_Some tmp xs : scalars_of tmp = Some xs -> tmp = map Scalar xs.
Proof.
  revert xs; induction tmp as [|[x|a] tmp IH]; intros xs; simpl.
  - now intros [= <-].
  - destruct (scalars_of tmp) as [ys|]; simpl; [|discriminate].
    intros [= <-]. simpl. now rewrite (IH ys).
  - discriminate.
Qed.

Lemma scalars_of_map xs : scalars_of (map Scalar xs) = Some xs.
Proof. induction xs as [|x xs IH]; simpl; [reflexivity | now rewrite IH]. Qed.

Lemma scalars_of_array tmp a : In (Array a) tmp -> scalars_of tmp = None.
Proof.
  induction tmp as [|[x|a'] tmp IH]; simpl; [tauto | | reflexivity].
  intros [H | H]; [discriminate | now rewrite IH].
Qed.

Lemma arrays_of_Some n tmp rows :
  arrays_of n tmp = Some rows ->
  tmp = map Array rows /\ Forall (fun a => length a = n) rows.
Proof.
  revert rows; induction tmp as [|[x|a] tmp IH]; intros rows; simpl.
  - intros [= <-]. split; [reflexivity | constructor].
  - discriminate.
  - destruct (Nat.eqb_spec (length a) n) as [Hlen|_]; [|discriminate].
    destruct (arrays_of n tmp) as [rs|]; simpl; [|discriminate].
    intros [= <-]. destruct (IH rs eq_refl) as [-> Hrs].
    split; [reflexivity | now constructor].
Qed.

Lemma arrays_of_map n rows :
  Forall (fun a => length a = n) rows -> arrays_of n (map Array rows) = Some rows.
Proof.
  induction 1 as [|a rows Ha _ IH]; simpl; [reflexivity|].
  destruct (Nat.eqb_spec (length a) n) as [_|H]; [|contradiction].
  now rewrite IH.
Qed.

Lemma arrays_of_scalar n tmp x : In (Scalar x) tmp -> arrays_of n tmp = None.
Proof.
  induction tmp as [|[x'|a] tmp IH]; simpl; [tauto | reflexivity |].
  intros [H | H]; [discriminate|]. rewrite (IH H).
  now destruct (Nat.eqb (length a) n).
Qed.

(** A list that holds a number and an array is ragged. *)
Lemma np_sum_axis0_ragged tmp x a :
  In (Scalar x) tmp -> In (Array a) tmp -> np_sum_axis0 tmp = Raise ValueError.
Proof.
  destruct tmp as [|[x0|a0] tmp]; simpl; [tauto | |].
  - intros _ [H | H]; [discriminate|]. now rewrite (scalars_of_array tmp a).
  - intros [H | H] _; [discriminate|].
    now rewrite (arrays_of_scalar (length a0) tmp x).
Qed.

Lemma length_fold_map2_add rows (a : ndarray) :
  Forall (fun r => length r = length a) rows ->
  length (fold_left (map2 X.add) rows a) = length a.
Proof.
  intros Hrows; revert a Hrows; induction rows as [|r rows IH]; intros a Hrows;
    [reflexivity|].
  inversion Hrows as [|? ? Hr Hrest]; subst. cbn [fold_left].
  assert (Hlen : length (map2 X.add a r) = length a)
    by (apply length_map2; congruence).
  rewrite IH; [exact Hlen|].
  eapply Forall_impl; [|exact Hrest]. intros r' Hr'. simpl in *. congruence.
Qed.

Lemma shaped_np_sqrt n w : shaped n w -> shaped n (np_sqrt w).
Proof. destruct w; simpl; auto. now rewrite length_map. Qed.

Lemma np_sum_axis0_shaped n tmp total :
  Forall (shaped n) tmp -> np_sum_axis0 tmp = Ok total -> shaped n total.
Proof.
  destruct tmp as [|[x|a] tmp]; simpl; intros Hsh.
  - now intros [= <-].
  - destruct (scalars_of tmp); [|discriminate]. now intros [= <-].
  - destruct (arrays_of (length a) tmp) as [rows|] eqn:Hrows; [|discriminate].
    intros [= <-]. simpl. inversion Hsh as [|? ? Ha _]; subst. simpl in Ha.
    rewrite length_fold_map2_add; [exact Ha|].
    now destruct (arrays_of_Some _ _ _ Hrows).
Qed.

Lemma jeffrey_tmp_shaped var bkg conv tmp :
  jeffrey_tmp var bkg conv = Ok tmp -> Forall (shaped (length var)) tmp.
Proof.
  revert conv tmp; induction bkg as [|b bkg IH]; intros conv tmp; simpl.
  - intros [= <-]. constructor.
  - destruct conv as [|c conv]; [discriminate|].
    destruct (jeffrey_tmp var bkg conv) as [rest|e] eqn:Hrest; simpl;
      [|discriminate].
    intros [= <-]. constructor; [|now apply (IH conv)].
    destruct (X.gt0 c); simpl; [apply length_map | exact I].
Qed.

Lemma signal_parameter_shaped var bkg conv prior_type w :
  signal_parameter var bkg conv prior_type = Ok w -> shaped (length var) w.
Proof.
  unfold signal_parameter.
  destruct (String.eqb prior_type "flat").
  { intros [= <-]. simpl. unfold flat, ones_like. apply length_map. }
  destruct (String.eqb prior_type "jeffrey").
  { unfold jeffrey_poisson.
    destruct (jeffrey_tmp var bkg conv) as [tmp|e] eqn:Htmp; simpl; [|discriminate].
    destruct (np_sum_axis0 tmp) as [total|e] eqn:Htotal; simpl; [|discriminate].
    intros [= <-]. apply shaped_np_sqrt.
    apply (np_sum_axis0_shaped _ tmp); [|exact Htotal].
    now apply (jeffrey_tmp_shaped var bkg conv). }
  destruct (String.eqb prior_type "invsqrt"); [|discriminate].
  intros [= <-]. simpl. unfold invsqrt. apply length_map.
Qed.

(** *** The Jeffreys prior on conversion factors of mixed sign *)

Lemma gt0_zero : X.gt0 (Fin 0) = false.
Proof. simpl. destruct (Rlt_dec 0 0); [lra | reflexivity]. Qed.

Lemma gt0_pos c : 0 < c -> X.gt0 (Fin c) = true.
Proof. intros Hc. simpl. destruct (Rlt_dec 0 c); [reflexivity | contradiction]. Qed.

Lemma gt0_nonpos c : c <= 0 -> X.gt0 (Fin c) = false.
Proof. intros Hc. simpl. destruct (Rlt_dec 0 c); [lra | reflexivity]. Qed.

Lemma sqrt_zero : X.sqrt (Fin 0) = Fin 0.
Proof. simpl. destruct (Rlt_dec 0 0) as [H|_]; [lra|]. now rewrite sqrt_0. Qed.

Lemma jeffrey_poisson_single_zero var b :
  jeffrey_poisson var [b] [Fin 0] = Ok (Scalar (Fin 0)).
Proof.
  unfold jeffrey_poisson. cbn [jeffrey_tmp bind]. rewrite gt0_zero.
  cbn [bind np_sum_axis0 scalars_of fold_left np_sqrt]. now rewrite sqrt_zero.
Qed.

(** C3 does not hold of the code: with two samples of conversion factors 2
    and 0 the list [tmp] holds an array and the integer 0, [np.sum] refuses the
    ragged list, and [jeffrey_poisson] raises [ValueError] where the claim has
    the second sample contribute 0. *)
Theorem jeffrey_poisson_mixed_conv_raises :
  jeffrey_poisson [Fin 1; Fin 2] [Fin 1; Fin 3] [Fin 2; Fin 0] = Raise ValueError.
Proof.
  unfold jeffrey_poisson. cbn [jeffrey_tmp bind].
  rewrite gt0_zero, (gt0_pos 2) by lra. reflexivity.
Qed.

(** *** Shape and sign of the prior weights *)

Lemma nonneg_add a b : X.nonneg a -> X.nonneg b -> X.nonneg (X.add a b).
Proof.
  destruct a as [x| | |], b as [y| | |]; simpl; try tauto. intros; lra.
Qed.

Lemma nonneg_sqrt a : X.nonneg a -> X.nonneg (X.sqrt a).
Proof.
  destruct a as [x| | |]; simpl; try tauto. intros Hx.
  destruct (Rlt_dec x 0) as [H|_]; [lra|]. simpl. apply sqrt_pos.
Qed.

Lemma Forall_map2 {A B C : Type} (P : A -> Prop) (Q : B -> Prop) (R' : C -> Prop)
  (f : A -> B -> C) l m :
  (forall a b, P a -> Q b -> R' (f a b)) ->
  Forall P l -> Forall Q m -> Forall R' (map2 f l m).
Proof.
  intros Hf Hl; revert m; induction Hl as [|a l Ha _ IH]; intros m Hm; simpl;
    [constructor|].
  destruct Hm as [|b m Hb Hm]; constructor; auto.
Qed.

Lemma nonneg_fold_rows rows (a : ndarray) :
  Forall (Forall X.nonneg) rows -> Forall X.nonneg a ->
  Forall X.nonneg (fold_left (map2 X.add) rows a).
Proof.
  intros Hrows; revert a; induction Hrows as [|r rows Hr _ IH]; intros a Ha;
    [exact Ha|].
  cbn [fold_left]. apply IH.
  eapply Forall_map2; [|exact Ha|exact Hr]. intros; now apply nonneg_add.
Qed.

Lemma jeffrey_tmp_all_positive (var bkg conv : list R) :
  length bkg = length conv -> Forall (fun c => 0 < c) conv ->
  jeffrey_tmp (map Fin var) (map Fin bkg) (map Fin conv) =
  Ok (map Array (jeffrey_rows var bkg conv)).
Proof.
  revert conv; induction bkg as [|b bkg IH]; intros [|c conv] Hlen Hpos;
    try discriminate; [reflexivity|].
  inversion Hpos as [|? ? Hc Hrest]; subst.
  cbn [map jeffrey_tmp]. rewrite gt0_pos by exact Hc.
  rewrite IH by (simpl in Hlen; auto; lia). cbn [bind].
  unfold jeffrey_rows. cbn [combine map]. now rewrite map_map.
Qed.

Lemma jeffrey_rows_nonneg (var bkg conv : list R) :
  Forall (fun v => 0 < v) var -> Forall (fun b => 0 <= b) bkg ->
  Forall (fun c => 0 < c) conv ->
  Forall (fun a => length a = length var /\ Forall X.nonneg a)
    (jeffrey_rows var bkg conv).
Proof.
  intros Hvar Hbkg; revert conv; induction Hbkg as [|b bkg Hb _ IH];
    intros [|c conv] Hconv; try constructor.
  - inversion Hconv as [|? ? Hc _]; subst. split; [apply length_map|].
    apply Forall_map. eapply Forall_impl; [|exact Hvar]. intros v Hv. simpl.
    assert (Hd : 0 < c * v + b) by nra.
    destruct (Req_dec_T (c * v + b) 0) as [H|_]; [lra|]. simpl.
    apply Rmult_le_pos; [nra|]. left. now apply Rinv_0_lt_compat.
  - apply IH. now inversion Hconv.
Qed.

Lemma jeffrey_poisson_all_positive (var bkg conv : list R) :
  Forall (fun v => 0 < v) var -> Forall (fun b => 0 <= b) bkg ->
  length bkg = length conv -> conv <> [] -> Forall (fun c => 0 < c) conv ->
  weighting_array (map Fin var)
    (jeffrey_poisson (map Fin var) (map Fin bkg) (map Fin conv)).
Proof.
  intros Hvar Hbkg Hlen Hne Hconv. unfold weighting_array, jeffrey_poisson.
  rewrite jeffrey_tmp_all_positive by assumption. cbn [bind].
  assert (Hrows := jeffrey_rows_nonneg var bkg conv Hvar Hbkg Hconv).
  destruct (jeffrey_rows var bkg conv) as [|a rows] eqn:Hr.
  { exfalso. unfold jeffrey_rows in Hr. apply map_eq_nil in Hr.
    destruct bkg, conv; simpl in *; try discriminate; congruence. }
  inversion Hrows as [|? ? [Ha Hann] Hrest]; subst.
  cbn [map np_sum_axis0]. rewrite arrays_of_map.
  - cbn [bind np_sqrt]. eexists. split; [reflexivity|]. split.
    + rewrite length_map, length_fold_map2_add, length_map; [exact Ha|].
      eapply Forall_impl; [|exact Hrest]. intros r [Hr' _]. congruence.
    + apply Forall_map.
      assert (Hsum : Forall X.nonneg (fold_left (map2 X.add) rows a)).
      { apply nonneg_fold_rows; [|exact Hann].
        eapply Forall_impl; [|exact Hrest]. now intros r [_ Hr']. }
      eapply Forall_impl; [|exact Hsum]. intros; now apply nonneg_sqrt.
  - eapply Forall_impl; [|exact Hrest]. intros r [Hr' _]. congruence.
Qed.

Lemma jeffrey_tmp_none_positive var (bkg : ndarray) (conv : list R) :
  length bkg = length conv -> Forall (fun c => c <= 0) conv ->
  jeffrey_tmp var bkg (map Fin conv) = Ok (map Scalar (map (fun _ => Fin 0) conv)).
Proof.
  revert conv; induction bkg as [|b bkg IH]; intros [|c conv] Hlen Hconv;
    try discriminate; [reflexivity|].
  inversion Hconv as [|? ? Hc Hrest]; subst.
  cbn [map jeffrey_tmp]. rewrite gt0_nonpos by exact Hc.
  rewrite IH by (simpl in Hlen; auto; lia). reflexivity.
Qed.

Lemma fold_add_zeros {A : Type} (l : list A) r :
  r = 0 -> exists r', fold_left X.add (map (fun _ => Fin 0) l) (Fin r) = Fin r' /\ r' = 0.
Proof.
  revert r; induction l as [|x l IH]; intros r Hr; simpl; [eauto|].
  apply IH. lra.
Qed.

Lemma jeffrey_poisson_none_positive var (bkg : ndarray) (conv : list R) :
  length bkg = length conv -> Forall (fun c => c <= 0) conv ->
  jeffrey_poisson var bkg (map Fin conv) = Ok (Scalar (Fin 0)).
Proof.
  intros Hlen Hconv. unfold jeffrey_poisson.
  rewrite jeffrey_tmp_none_positive by assumption. cbn [bind].
  destruct conv as [|c conv]; cbn [map np_sum_axis0].
  - cbn [bind np_sqrt]. now rewrite sqrt_zero.
  - rewrite scalars_of_map. cbn [bind np_sqrt].
    destruct (fold_add_zeros conv 0 eq_refl) as (r' & -> & ->).
    now rewrite sqrt_zero.
Qed.

Lemma flat_weighting var bkg conv :
  weighting_array var (signal_parameter var bkg conv "flat").
Proof.
  exists (flat var). split; [reflexivity|]. unfold flat, ones_like. split.
  - apply length_map.
  - apply Forall_map, Forall_forall. intros; simpl; lra.
Qed.

Lemma invsqrt_weighting (var : list R) bkg conv :
  Forall (fun v => 0 < v) var ->
  weighting_array (map Fin var) (signal_parameter (map Fin var) bkg conv "invsqrt").
Proof.
  intros Hvar. exists (invsqrt (map Fin var)). split; [reflexivity|].
  unfold invsqrt. split; [apply length_map|].
  apply Forall_map, Forall_map. eapply Forall_impl; [|exact Hvar].
  intros v Hv. simpl. destruct (Rlt_dec v 0) as [H|_]; [lra|]. simpl.
  assert (Hs : 0 < R_sqrt.sqrt v) by now apply sqrt_lt_R0.
  destruct (Req_dec_T (R_sqrt.sqrt v) 0) as [H|_]; [lra|]. simpl.
  apply Rmult_le_pos; [lra|]. left. now apply Rinv_0_lt_compat.
Qed.

(** C6, as amended: [flat], on any grid, and [invsqrt], on a real grid with
    entries [> 0], return an array of the grid's length with non-negative
    entries, whatever the backgrounds and conversion factors.  [jeffrey], on
    such a grid with real backgrounds [>= 0] and as many real conversion
    factors, returns an array of the grid's length with non-negative entries
    when there is a sample and every conversion factor is [> 0]; when no
    conversion factor is [> 0] it returns the scalar 0, not an array. *)
Theorem signal_parameter_weights :
  (forall var bkg conv : ndarray,
     weighting_array var (signal_parameter var bkg conv "flat")) /\
  (forall (var : list R) (bkg conv : ndarray),
     Forall (fun v => 0 < v) var ->
     weighting_array (map Fin var)
       (signal_parameter (map Fin var) bkg conv "invsqrt")) /\
  (forall var bkg conv : list R,
     Forall (fun v => 0 < v) var -> Forall (fun b => 0 <= b) bkg ->
     length bkg = length conv -> conv <> [] -> Forall (fun c => 0 < c) conv ->
     weighting_array (map Fin var)
       (signal_parameter (map Fin var) (map Fin bkg) (map Fin conv) "jeffrey")) /\
  (forall (var bkg : ndarray) (conv : list R),
     length bkg = length conv -> Forall (fun c => c <= 0) conv ->
     signal_parameter var bkg (map Fin conv) "jeffrey" = Ok (Scalar (Fin 0))).
Proof.
  split; [exact flat_weighting|]. split; [exact invsqrt_weighting|]. split.
  - exact jeffrey_poisson_all_positive.
  - exact jeffrey_poisson_none_positive.
Qed.

Lemma signal_parameter_weights_witness :
  weighting_array (map Fin [1; 4])
    (signal_parameter (map Fin [1; 4]) [Fin 1] [] "invsqrt") /\
  weighting_array (map Fin [1; 2])
    (signal_parameter (map Fin [1; 2]) (map Fin [1; 0]) (map Fin [2; 3]) "jeffrey") /\
  signal_parameter [Fin 1; Fin 2] [Fin 1] (map Fin [0]) "jeffrey" =
  Ok (Scalar (Fin 0)).
Proof.
  destruct signal_parameter_weights as (_ & Hinv & Hpos & Hnone).
  split; [|split].
  - apply (Hinv [1; 4] [Fin 1] []). repeat constructor; lra.
  - apply (Hpos [1; 2] [1; 0] [2; 3]).
    + repeat constructor; lra.
    + repeat constructor; lra.
    + reflexivity.
    + discriminate.
    + repeat constructor; lra.
  - apply (Hnone [Fin 1; Fin 2] [Fin 1] [0]); [reflexivity|].
    repeat constructor; lra.
Defined.

(** C6 as stated fails: with a single sample of conversion factor 0, [jeffrey]
    returns the scalar 0, not an array of the grid's length; on a negative
    trial value [invsqrt] returns NaN, which is not non-negative; and so does
    [jeffrey] on a negative background. *)
Lemma signal_parameter_not_weighting_array :
  ~ weighting_array [Fin 1; Fin 2]
      (signal_parameter [Fin 1; Fin 2] [Fin 1] [Fin 0] "jeffrey") /\
  ~ weighting_array [Fin (-1)]
      (signal_parameter [Fin (-1)] [Fin 1] [Fin 1] "invsqrt") /\
  ~ weighting_array [Fin 1]
      (signal_parameter [Fin 1] [Fin (-2)] [Fin 1] "jeffrey").
Proof.
  split; [|split]; intros (a & Ha & Hlen & Hnn).
  - change (signal_parameter [Fin 1; Fin 2] [Fin 1] [Fin 0] "jeffrey")
      with (jeffrey_poisson [Fin 1; Fin 2] [Fin 1] [Fin 0]) in Ha.
    rewrite jeffrey_poisson_single_zero in Ha. discriminate.
  - change (signal_parameter [Fin (-1)] [Fin 1] [Fin 1] "invsqrt")
      with (Ok (Array (invsqrt [Fin (-1)]))) in Ha.
    injection Ha as <-. unfold invsqrt in Hnn. simpl in Hnn.
    destruct (Rlt_dec (-1) 0) as [_|H]; [|lra].
    inversion Hnn as [|? ? H1 _]. exact H1.
  - change (signal_parameter [Fin 1] [Fin (-2)] [Fin 1] "jeffrey")
      with (jeffrey_poisson [Fin 1] [Fin (-2)] [Fin 1]) in Ha.
    unfold jeffrey_poisson in Ha. cbn [jeffrey_tmp bind] in Ha.
    rewrite (gt0_pos 1) in Ha by lra.
    cbn [bind np_sum_axis0 arrays_of fold_left np_sqrt map] in Ha.
    injection Ha as <-. simpl in Hnn.
    destruct (Req_dec_T (1 * 1 + -2) 0) as [H|_]; [lra|]. simpl in Hnn.
    destruct (Rlt_dec (1 * 1 / (1 * 1 + -2)) 0) as [_|H].
    + inversion Hnn as [|? ? H1 _]. exact H1.
    + apply H. replace (1 * 1 / (1 * 1 + -2)) with (-1) by (field; lra). lra.
Qed.

(** ** Results on posteriors.py *)

Section Aggregation.

Context {GWToy : Type}.

Lemma length_poisson_several_samples nobs nbkg conv var :
  length (poisson_several_samples nobs nbkg conv var) = length var.
Proof.
  unfold poisson_several_samples. rewrite length_map.
  apply (length_loglkl_loop var (zip3 nobs nbkg conv)). apply length_map.
Qed.

Lemma nth_np_mul_array a w j :
  (j < length a)%nat -> shaped (length a) w ->
  nth j (np_mul_array a w) NaN = X.mul (nth j a NaN) (np_at w j).
Proof.
  intros Hj. destruct w as [x|b]; simpl; intros Hw.
  - apply (nth_map_in (fun y => X.mul y x)). exact Hj.
  - apply nth_map2; lia.
Qed.

Lemma length_np_mul_array a w :
  shaped (length a) w -> length (np_mul_array a w) = length a.
Proof.
  destruct w as [x|b]; simpl; intros Hw; [apply length_map|].
  apply length_map2. lia.
Qed.

Lemma map_nth_seq_id (l : ndarray) :
  map (fun j => nth j l NaN) (seq 0 (length l)) = l.
Proof.
  apply (nth_ext _ _ NaN NaN).
  - now rewrite length_map, length_seq.
  - intros j Hj. rewrite length_map, length_seq in Hj.
    rewrite (nth_map_in (fun j => nth j l NaN) _ j 0%nat)
      by (now rewrite length_seq).
    now rewrite seq_nth.
Qed.

(** The in-place accumulation over the toys computes, at each grid index, the
    running sum started from the initial array. *)
Lemma toys_loop_pointwise (to_nsig : Toy GWToy -> ndarray) prior_type x_arr ts post_arr :
  length post_arr = length x_arr ->
  toys_loop to_nsig prior_type x_arr ts post_arr =
  ws <- prior_weights to_nsig prior_type x_arr ts ;;
  Ok (map (fun j =>
             posterior_at to_nsig x_arr (combine ts ws) (nth j post_arr NaN) j)
        (seq 0 (length x_arr))).
Proof.
  revert post_arr; induction ts as [|toy ts IH]; intros post Hpost.
  - simpl. rewrite <- Hpost. now rewrite map_nth_seq_id.
  - cbn [toys_loop prior_weights].
    destruct (signal_parameter x_arr (nbackground (snd toy)) (to_nsig toy)
                prior_type) as [w|e] eqn:Hw; cbn [bind]; [|reflexivity].
    assert (Hsh := signal_parameter_shaped _ _ _ _ _ Hw).
    set (lkl := poisson_several_samples (nobserved (snd toy))
                  (nbackground (snd toy)) (to_nsig toy) x_arr) in *.
    assert (Hlkl : length lkl = length x_arr)
      by apply length_poisson_several_samples.
    rewrite <- Hlkl in Hsh.
    assert (Hrhs : length (np_mul_array lkl w) = length x_arr)
      by (rewrite length_np_mul_array; assumption).
    rewrite IH by (unfold iadd; rewrite length_map2; lia).
    destruct (prior_weights to_nsig prior_type x_arr ts) as [ws|e];
      cbn [bind]; [|reflexivity].
    f_equal. apply map_ext_in. intros j Hj. apply in_seq in Hj.
    cbn [combine posterior_at fold_left]. fold lkl.
    unfold posterior_at. f_equal. unfold iadd.
    rewrite (nth_map2 X.add _ _ j NaN NaN) by lia.
    rewrite nth_np_mul_array by (assumption || lia). reflexivity.
Qed.

Lemma posterior_loop_from_zero (to_nsig : Toy GWToy -> ndarray) prior_type r ts :
  (x_arr <- logspace r ;;
   post_arr <- toys_loop to_nsig prior_type x_arr ts (zeros_like x_arr) ;;
   Ok (x_arr, post_arr)) =
  aggregate to_nsig prior_type r ts.
Proof.
  unfold aggregate. destruct (logspace r) as [x_arr|e]; cbn [bind]; [|reflexivity].
  rewrite toys_loop_pointwise by apply length_map.
  destruct (prior_weights to_nsig prior_type x_arr ts) as [ws|e];
    cbn [bind]; [|reflexivity].
  do 2 f_equal. apply map_ext_in. intros j Hj. apply in_seq in Hj.
  f_equal. unfold zeros_like.
  apply (nth_map_in (fun _ : xreal => Fin 0) x_arr j NaN). lia.
Qed.

End Aggregation.

(** C2: each of the three posteriors returns the grid of its range together
    with, at every grid index, the sum over the toys of the multi-sample
    Poisson likelihood times the prior weight at that index; toys enter with
    equal weight and nothing is normalised.  An exception raised by the grid or
    by the prior of a toy is the posterior's exception. *)
Theorem compute_posterior_aggregates
  {Detector GW GWToy : Type}
  (mkAnalysis : GW -> Detector -> Parameters -> Analysis GWToy)
  (add_gw_variables : Analysis GWToy -> list string -> Analysis GWToy)
  (detector : Detector) (gw : GW) (parameters : Parameters) :
  let ana_flux := mkAnalysis gw detector parameters in
  let ana_etot :=
    add_gw_variables ana_flux ["luminosity_distance"; "theta_jn"]%string in
  let ana_fnu :=
    add_gw_variables ana_flux
      ["luminosity_distance"; "theta_jn"; "radiated_energy"]%string in
  compute_flux_posterior mkAnalysis detector gw parameters =
    aggregate (phi_to_nsig ana_flux) (prior_signal parameters)
      (range_flux parameters) (toys ana_flux) /\
  compute_etot_posterior mkAnalysis add_gw_variables detector gw parameters =
    aggregate (etot_to_nsig ana_etot) (prior_signal parameters)
      (range_etot parameters) (toys ana_etot) /\
  compute_fnu_posterior mkAnalysis add_gw_variables detector gw parameters =
    aggregate (fnu_to_nsig ana_fnu) (prior_signal parameters)
      (range_fnu parameters) (toys ana_fnu).
Proof.
  intros ana_flux ana_etot ana_fnu.
  split; [|split]; apply posterior_loop_from_zero.
Qed.

(** ** Results on limits.py *)

(** The flux variable of [get_limit_flux_with_othervars] takes its range from
    [range_fnu], whatever the configuration. *)
Lemma othervars_flux_variable_reads_range_fnu parameters other_variables :
  map (fun v => (pv_name v, pv_range v, pv_nsamples v))
    (firstn 1 (get_limit_flux_with_othervars_variables parameters other_variables)) =
  [("flux"%string, range_bounds (range_fnu parameters),
    range_count (range_fnu parameters))].
Proof. reflexivity. Qed.

(** [get_limit_flux] and [get_limitmap_flux] read [range_flux]. *)
Lemma flux_variable_reads_range_flux parameters :
  get_limit_flux_variables parameters = get_limitmap_flux_variables parameters /\
  map (fun v => (pv_name v, pv_range v, pv_nsamples v))
    (get_limit_flux_variables parameters) =
  [("flux"%string, range_bounds (range_flux parameters),
    range_count (range_flux parameters))].
Proof. split; reflexivity. Qed.

(** C9 does not hold of the code: on the test configuration, where
    [log10_flux = [-5, 5, 1000]] and [log10_fnu = [-5, 10, 1500]],
    [get_limit_flux] builds its flux variable on [(-5, 5)] with 1000 points,
    and [get_limit_flux_with_othervars] builds it on [(-5, 10)] with 1500
    points, the range configured for [fnu]. *)
Theorem othervars_flux_grid_differs :
  get_limit_flux_variables test_parameters =
    [ {| pv_name := "flux"; pv_range := (-5, 5)%Z; pv_nsamples := 1000%Z;
         pv_log := true |} ] /\
  get_limit_flux_with_othervars_variables test_parameters [] =
    [ {| pv_name := "flux"; pv_range := (-5, 10)%Z; pv_nsamples := 1500%Z;
         pv_log := true |} ] /\
  get_limit_flux_with_othervars_variables test_parameters [] <>
    get_limit_flux_variables test_parameters.
Proof.
  split; [reflexivity|]. split; [reflexivity|]. discriminate.
Qed.

(** ** Further results on likelihoods.py *)

Module XFacts.

Lemma add_comm (a b : xreal) : X.add a b = X.add b a.
Proof.
  destruct a, b; simpl; try reflexivity. f_equal; lra.
Qed.

Lemma add_assoc (a b c : xreal) : X.add (X.add a b) c = X.add a (X.add b c).
Proof.
  destruct a, b, c; simpl; try reflexivity. f_equal; lra.
Qed.

Lemma add_0_l (a : xreal) : X.add (Fin 0) a = a.
Proof. destruct a; simpl; try reflexivity. f_equal; lra. Qed.

Lemma add_0_r (a : xreal) : X.add a (Fin 0) = a.
Proof. rewrite add_comm. apply add_0_l. Qed.

End XFacts.

Lemma loglkl_loop_pointwise var samples (f : xreal -> xreal) :
  loglkl_loop var samples (map f var) =
  map (fun v => loglkl_at samples (f v) v) var.
Proof.
  revert f; induction samples as [|[[n b] c] samples IH]; intros f; [reflexivity|].
  change (loglkl_loop var ((n, b, c) :: samples) (map f var))
    with (loglkl_loop var samples
            (map2 X.add (map f var) (logpoisson_one_sample n b c var))).
  rewrite logpoisson_one_sample_pointwise, map2_map_map.
  exact (IH (fun v => X.add (f v) (logpoisson_at n b c v))).
Qed.

(** The multi-sample likelihood, grid point by grid point. *)
Lemma poisson_several_samples_pointwise nobs nbkg conv var :
  poisson_several_samples nobs nbkg conv var =
  map (fun v => X.exp (loglkl_at (zip3 nobs nbkg conv) (Fin 0) v)) var.
Proof.
  unfold poisson_several_samples.
  change (fold_left _ (zip3 nobs nbkg conv) (zeros_like var))
    with (loglkl_loop var (zip3 nobs nbkg conv) (map (fun _ => Fin 0) var)).
  rewrite loglkl_loop_pointwise, map_map. reflexivity.
Qed.

Lemma loglkl_at_start samples start v :
  loglkl_at samples start v = X.add start (loglkl_at samples (Fin 0) v).
Proof.
  revert start; induction samples as [|[[n b] c] samples IH]; intros start.
  - simpl. now rewrite XFacts.add_0_r.
  - change (loglkl_at ((n, b, c) :: samples) start v)
      with (loglkl_at samples (X.add start (logpoisson_at n b c v)) v).
    change (loglkl_at ((n, b, c) :: samples) (Fin 0) v)
      with (loglkl_at samples (X.add (Fin 0) (logpoisson_at n b c v)) v).
    rewrite IH, (IH (X.add (Fin 0) _)), XFacts.add_0_l. apply XFacts.add_assoc.
Qed.

Lemma loglkl_at_app s1 s2 start v :
  loglkl_at (s1 ++ s2) start v =
  X.add (loglkl_at s1 start v) (loglkl_at s2 (Fin 0) v).
Proof.
  unfold loglkl_at at 1. rewrite fold_left_app.
  apply (loglkl_at_start s2).
Qed.

Lemma loglkl_at_perm s1 s2 start v :
  Permutation s1 s2 -> loglkl_at s1 start v = loglkl_at s2 start v.
Proof.
  intros Hp; revert start; induction Hp; intros start.
  - reflexivity.
  - destruct x as [[n b] c]. simpl. apply IHHp.
  - destruct x as [[n b] c], y as [[n' b'] c']. simpl. f_equal.
    rewrite !XFacts.add_assoc. f_equal. apply XFacts.add_comm.
  - now rewrite IHHp1.
Qed.

Lemma zip3_app {A B C : Type} (a1 a2 : list A) (b1 b2 : list B) (c1 c2 : list C) :
  length a1 = length b1 -> length b1 = length c1 ->
  zip3 (a1 ++ a2) (b1 ++ b2) (c1 ++ c2) = zip3 a1 b1 c1 ++ zip3 a2 b2 c2.
Proof.
  revert b1 c1; induction a1 as [|x a1 IH]; intros [|y b1] [|z c1]; simpl;
    try discriminate; intros H1 H2; [reflexivity|].
  f_equal. apply IH; lia.
Qed.

Lemma zip3_firstn {A B C : Type} (a : list A) (b : list B) (c : list C) m :
  (length a <= m \/ length b <= m \/ length c <= m)%nat ->
  zip3 (firstn m a) (firstn m b) (firstn m c) = zip3 a b c.
Proof.
  revert a b c; induction m as [|m IH]; intros a b c H.
  - destruct a, b, c; simpl in *; try reflexivity; lia.
  - destruct a as [|x a], b as [|y b], c as [|z c]; simpl in *; try reflexivity.
    f_equal. apply IH. lia.
Qed.

(** X1: concatenating two groups of samples multiplies their likelihoods,
    grid point by grid point. *)
Theorem poisson_several_samples_app
  (n1 n2 : list Z) (b1 b2 c1 c2 var : ndarray) :
  length n1 = length b1 -> length b1 = length c1 ->
  poisson_several_samples (n1 ++ n2) (b1 ++ b2) (c1 ++ c2) var =
  map2 X.mul (poisson_several_samples n1 b1 c1 var)
             (poisson_several_samples n2 b2 c2 var).
Proof.
  intros H1 H2. rewrite !poisson_several_samples_pointwise, map2_map_map.
  apply map_ext; intros v.
  rewrite zip3_app, loglkl_at_app by assumption. apply exp_add.
Qed.

Lemma poisson_several_samples_app_witness :
  poisson_several_samples ([1%Z] ++ [0%Z]) ([Fin 1] ++ [Fin 2]) ([Fin 3] ++ [Fin 1])
    [Fin 1; Fin 2] =
  map2 X.mul (poisson_several_samples [1%Z] [Fin 1] [Fin 3] [Fin 1; Fin 2])
             (poisson_several_samples [0%Z] [Fin 2] [Fin 1] [Fin 1; Fin 2]).
Proof.
  apply (poisson_several_samples_app [1%Z] [0%Z] [Fin 1] [Fin 2] [Fin 3] [Fin 1]
           [Fin 1; Fin 2]); reflexivity.
Defined.

(** X2: the multi-sample likelihood does not depend on the order of the
    samples. *)
Theorem poisson_several_samples_perm
  (n n' : list Z) (b b' c c' var : ndarray) :
  Permutation (zip3 n b c) (zip3 n' b' c') ->
  poisson_several_samples n b c var = poisson_several_samples n' b' c' var.
Proof.
  intros Hp. rewrite !poisson_several_samples_pointwise.
  apply map_ext; intros v. f_equal. now apply loglkl_at_perm.
Qed.

Lemma poisson_several_samples_perm_witness :
  poisson_several_samples [1%Z; 0%Z] [Fin 1; Fin 2] [Fin 3; Fin 4] [Fin 1] =
  poisson_several_samples [0%Z; 1%Z] [Fin 2; Fin 1] [Fin 4; Fin 3] [Fin 1].
Proof.
  apply (poisson_several_samples_perm [1%Z; 0%Z] [0%Z; 1%Z] [Fin 1; Fin 2]
           [Fin 2; Fin 1] [Fin 3; Fin 4] [Fin 4; Fin 3] [Fin 1]).
  simpl. apply perm_swap.
Defined.

(** X3: the three per-sample arrays are zipped, so entries beyond the length
    of the shortest one are ignored without an error. *)
Theorem poisson_several_samples_truncates
  (nobs : list Z) (nbkg conv var : ndarray) :
  let m := Nat.min (length nobs) (Nat.min (length nbkg) (length conv)) in
  poisson_several_samples nobs nbkg conv var =
  poisson_several_samples (firstn m nobs) (firstn m nbkg) (firstn m conv) var.
Proof.
  intros m. rewrite !poisson_several_samples_pointwise.
  rewrite zip3_firstn; [reflexivity|]. unfold m. lia.
Qed.

(** *** Real inputs: infeasible points get likelihood 0 *)

Lemma gammaln_cases z : (exists r, gammaln z = Fin r) \/ gammaln z = PInf.
Proof. unfold gammaln. destruct (0 <? z)%Z; [left; eauto | now right]. Qed.

Lemma logpoisson_at_real n b c v :
  fin_or_ninf (logpoisson_at n (Fin b) (Fin c) (Fin v)).
Proof.
  unfold logpoisson_at, fin_or_ninf. simpl.
  destruct (Rlt_dec 0 (c * v + b)) as [Hpos|Hnpos]; [|now left].
  destruct (gammaln_cases (n + 1)) as [[r ->] | ->]; simpl; [right; eauto | now left].
Qed.

Lemma logpoisson_at_infeasible n b c v :
  c * v + b <= 0 -> logpoisson_at n (Fin b) (Fin c) (Fin v) = NInf.
Proof.
  intros H. unfold logpoisson_at. simpl.
  destruct (Rlt_dec 0 (c * v + b)) as [Hpos|_]; [lra | reflexivity].
Qed.

Lemma fin_or_ninf_add a b : fin_or_ninf a -> fin_or_ninf b -> fin_or_ninf (X.add a b).
Proof.
  intros [-> | [x ->]] [-> | [y ->]]; simpl; unfold fin_or_ninf; eauto.
Qed.

Lemma add_ninf_r a : fin_or_ninf a -> X.add a NInf = NInf.
Proof. intros [-> | [x ->]]; reflexivity. Qed.

Lemma add_ninf_l a : fin_or_ninf a -> X.add NInf a = NInf.
Proof. intros [-> | [x ->]]; reflexivity. Qed.

Lemma in_real_samples nobs nbkg conv s :
  In s (real_samples nobs nbkg conv) ->
  exists n b c, s = (n, Fin b, Fin c) /\ In (n, b, c) (zip3 nobs nbkg conv).
Proof.
  unfold real_samples. revert nbkg conv.
  induction nobs as [|n nobs IH]; intros [|b nbkg] [|c conv]; simpl; try tauto.
  intros [<- | Hin]; [exists n, b, c; auto|].
  destruct (IH _ _ Hin) as (n' & b' & c' & -> & Hin'). exists n', b', c'; auto.
Qed.

Lemma real_samples_in nobs nbkg conv n b c :
  In (n, b, c) (zip3 nobs nbkg conv) ->
  In (n, Fin b, Fin c) (real_samples nobs nbkg conv).
Proof.
  unfold real_samples. revert nbkg conv.
  induction nobs as [|n0 nobs IH]; intros [|b0 nbkg] [|c0 conv]; simpl; try tauto.
  intros [[= -> -> ->] | Hin]; [now left | right; now apply IH].
Qed.

Lemma loglkl_at_real samples start v :
  (forall s, In s samples -> exists n b c, s = (n, Fin b, Fin c)) ->
  fin_or_ninf start -> fin_or_ninf (loglkl_at samples start (Fin v)).
Proof.
  revert start; induction samples as [|s samples IH]; intros start Hs Hstart;
    [exact Hstart|].
  destruct (Hs s (or_introl eq_refl)) as (n & b & c & ->).
  apply IH; [intros; apply Hs; now right|].
  apply fin_or_ninf_add; [exact Hstart | apply logpoisson_at_real].
Qed.

Lemma loglkl_at_ninf samples v :
  (forall s, In s samples -> exists n b c, s = (n, Fin b, Fin c)) ->
  fin_or_ninf (loglkl_at samples NInf (Fin v)) ->
  loglkl_at samples NInf (Fin v) = NInf.
Proof.
  induction samples as [|s samples IH]; intros Hs _; [reflexivity|].
  destruct (Hs s (or_introl eq_refl)) as (n & b & c & ->).
  cbn [loglkl_at fold_left]. rewrite add_ninf_l by apply logpoisson_at_real.
  apply IH; [intros; apply Hs; now right|].
  apply loglkl_at_real; [intros; apply Hs; now right | now left].
Qed.

Lemma loglkl_at_infeasible samples start v n b c :
  (forall s, In s samples -> exists n b c, s = (n, Fin b, Fin c)) ->
  fin_or_ninf start ->
  In (n, Fin b, Fin c) samples -> c * v + b <= 0 ->
  loglkl_at samples start (Fin v) = NInf.
Proof.
  revert start; induction samples as [|s samples IH]; intros start Hs Hstart Hin Hle;
    [destruct Hin|].
  assert (Hs' : forall s', In s' samples -> exists n b c, s' = (n, Fin b, Fin c))
    by (intros; apply Hs; now right).
  destruct Hin as [-> | Hin].
  - cbn [loglkl_at fold_left]. rewrite logpoisson_at_infeasible by exact Hle.
    rewrite add_ninf_r by exact Hstart.
    apply loglkl_at_ninf; [exact Hs'|].
    apply loglkl_at_real; [exact Hs' | now left].
  - destruct (Hs s (or_introl eq_refl)) as (n' & b' & c' & ->).
    apply (IH (X.add start (logpoisson_at n' (Fin b') (Fin c') (Fin v)))); auto.
    apply fin_or_ninf_add; [exact Hstart | apply logpoisson_at_real].
Qed.

Lemma real_samples_shape nobs nbkg conv s :
  In s (real_samples nobs nbkg conv) -> exists n b c, s = (n, Fin b, Fin c).
Proof.
  intros Hin. destruct (in_real_samples _ _ _ _ Hin) as (n & b & c & -> & _). eauto.
Qed.

(** X5: on real input, the multi-sample likelihood is exactly 0 at every grid
    point where some sample has a non-positive expected count
    [conv * v + nbackground]. *)
Theorem poisson_several_samples_zero_where_infeasible
  (nobs : list Z) (nbkg conv var : list R) (n : Z) (b c : R) (j : nat) :
  (j < length var)%nat ->
  In (n, b, c) (zip3 nobs nbkg conv) ->
  c * nth j var 0 + b <= 0 ->
  nth j (poisson_several_samples nobs (map Fin nbkg) (map Fin conv) (map Fin var))
    NaN = Fin 0.
Proof.
  intros Hj Hin Hle.
  rewrite poisson_several_samples_pointwise, map_map.
  rewrite (nth_map_in _ var j 0) by exact Hj.
  rewrite (loglkl_at_infeasible _ _ _ n b c); try assumption; try reflexivity.
  - apply real_samples_shape.
  - right. now exists 0.
  - now apply real_samples_in.
Qed.

Lemma poisson_several_samples_zero_where_infeasible_witness :
  nth 0 (poisson_several_samples [1%Z; 2%Z] (map Fin [1; 0]) (map Fin [1; 3])
           (map Fin [0; 1])) NaN = Fin 0.
Proof.
  apply (poisson_several_samples_zero_where_infeasible
           [1%Z; 2%Z] [1; 0] [1; 3] [0; 1] 2%Z 0 3 0%nat).
  - simpl. lia.
  - simpl. right. left. reflexivity.
  - simpl. lra.
Defined.

(** ** Further results on the point-source likelihood *)

Section EventLoop.

Context {Event : Type}.
Variable s : Sample Event.
Variables nbackground ra_src dec_src : xreal.
Variable vt : option (xreal * xreal).

Lemma scale_by_factors (fs : list xreal) (ll : ndarray) :
  fold_left (fun ll f => map (fun x => X.mul x f) ll) fs ll =
  map (fun x => fold_left X.mul fs x) ll.
Proof.
  revert ll; induction fs as [|f fs IH]; intros ll; simpl.
  - symmetry. apply map_id.
  - rewrite IH, map_map. reflexivity.
Qed.

Lemma event_step_eq (nsignal loglkl : ndarray) (evt : Event) :
  event_step Event s nbackground ra_src dec_src vt (nsignal, loglkl) evt =
  (map (fun x => fold_left X.mul
                   (signal_factors Event (pdfs_signal s) evt ra_src dec_src vt) x)
     nsignal,
   map2 X.add loglkl
     (map (fun x =>
             X.log
               (X.add
                  (X.add (Fin 0)
                     (fold_left X.mul
                        (signal_factors Event (pdfs_signal s) evt ra_src dec_src vt)
                        x))
                  (fold_left X.mul
                     (background_factors Event (pdfs_background s) evt)
                     nbackground)))
        nsignal)).
Proof.
  unfold event_step. rewrite scale_by_factors, !map_map. reflexivity.
Qed.

Lemma event_loop_fst (evts : list Event) (nsignal loglkl : ndarray) :
  fst (fold_left (event_step Event s nbackground ra_src dec_src vt) evts
         (nsignal, loglkl)) =
  map (fun x =>
         fold_left X.mul
           (flat_map (fun e => signal_factors Event (pdfs_signal s) e
                                 ra_src dec_src vt) evts) x)
    nsignal.
Proof.
  revert nsignal loglkl; induction evts as [|e evts IH]; intros nsignal loglkl.
  - simpl. symmetry. apply map_id.
  - cbn [fold_left flat_map]. rewrite event_step_eq, IH, map_map.
    apply map_ext; intros x. now rewrite fold_left_app.
Qed.

Lemma event_loop_lengths (evts : list Event) (nsignal loglkl : ndarray) :
  length loglkl = length nsignal ->
  length (snd (fold_left (event_step Event s nbackground ra_src dec_src vt) evts
                 (nsignal, loglkl))) = length nsignal.
Proof.
  revert nsignal loglkl; induction evts as [|e evts IH]; intros nsignal loglkl Hlen.
  - exact Hlen.
  - cbn [fold_left]. rewrite event_step_eq, IH; rewrite ?length_map2, ?length_map;
      rewrite ?length_map; auto.
Qed.

Lemma event_loop_snoc (evts : list Event) (e : Event) (st0 : ndarray * ndarray) :
  snd (fold_left (event_step Event s nbackground ra_src dec_src vt) (evts ++ [e])
         st0) =
  map2 X.add
    (snd (fold_left (event_step Event s nbackground ra_src dec_src vt) evts st0))
    (map (fun x =>
            X.log
              (X.add
                 (X.add (Fin 0)
                    (fold_left X.mul
                       (flat_map (fun e' => signal_factors Event (pdfs_signal s) e'
                                              ra_src dec_src vt) (evts ++ [e]))
                       x))
                 (fold_left X.mul
                    (background_factors Event (pdfs_background s) e)
                    nbackground)))
       (fst st0)).
Proof.
  destruct st0 as [ns0 ll0]. rewrite fold_left_app. cbn [fold_left fst].
  assert (Hns := event_loop_fst evts ns0 ll0).
  destruct (fold_left (event_step Event s nbackground ra_src dec_src vt) evts
              (ns0, ll0)) as [ns1 ll1].
  cbn [fst snd] in *. rewrite event_step_eq. cbn [snd]. f_equal.
  rewrite Hns, map_map. apply map_ext; intros x.
  rewrite flat_map_app, fold_left_app. cbn [flat_map]. now rewrite app_nil_r.
Qed.

End EventLoop.

Lemma logpointsource_with_events {Event : Type} (s : Sample Event)
  (evts : list Event) n b c ra dec var other :
  logpointsource_one_sample (with_events s evts) n b c ra dec var other =
  snd (fold_left (event_step Event s b ra dec (var_time other)) evts
         (pointsource_init n b c var)).
Proof. reflexivity. Qed.

Lemma length_logpointsource_one_sample {Event : Type} (s : Sample Event)
  n b c ra dec var other :
  length (logpointsource_one_sample s n b c ra dec var other) = length var.
Proof.
  unfold logpointsource_one_sample.
  destruct (events s) as [evts|]; [|apply length_logpoisson_one_sample].
  cbn zeta. rewrite event_loop_lengths; [now rewrite length_map|].
  unfold where_else_neginf. rewrite length_map2; rewrite !length_map; reflexivity.
Qed.

(** X6: both point-source functions return an array of the grid's length,
    whatever the samples, their events and their densities. *)
Theorem pointsource_shape {Event : Type}
  (samples : list (Sample Event)) (s : Sample Event)
  (nobs : list Z) (n : Z) (nbkg conv : ndarray) (b c ra dec : xreal)
  (var : ndarray) (other : option dict) :
  length (logpointsource_one_sample s n b c ra dec var other) = length var /\
  length (pointsource_several_samples Event samples nobs nbkg conv ra dec var other)
  = length var.
Proof.
  split; [apply length_logpointsource_one_sample|].
  unfold pointsource_several_samples. rewrite length_map.
  generalize (combine (zip3 nobs nbkg conv) samples) as l.
  assert (H0 : length (zeros_like var) = length var) by apply length_map.
  revert H0. generalize (zeros_like var) as acc.
  intros acc Hacc l; revert acc Hacc.
  induction l as [|[[[n0 b0] c0] s0] l IH]; intros acc Hacc; [exact Hacc|].
  cbn [fold_left]. apply IH.
  rewrite length_map2; [exact Hacc|].
  now rewrite length_logpointsource_one_sample.
Qed.

(** X7: the signal array is scaled in place, so the term of the last event is
    formed from [conv * var] times the signal densities of every event of the
    list, not of the last event alone: appending an event [e] adds, at each
    trial value [v], the logarithm of that scaled signal plus the background
    term of [e]. *)
Theorem logpointsource_last_event {Event : Type}
  (s : Sample Event) (evts : list Event) (e : Event)
  (n : Z) (b c ra dec : xreal) (var : ndarray) (other : option dict) :
  logpointsource_one_sample (with_events s (evts ++ [e])) n b c ra dec var other =
  map2 X.add
    (logpointsource_one_sample (with_events s evts) n b c ra dec var other)
    (map (fun v =>
            X.log
              (X.add
                 (X.add (Fin 0)
                    (fold_left X.mul
                       (flat_map
                          (fun e' => signal_factors Event (pdfs_signal s) e'
                                       ra dec (var_time other))
                          (evts ++ [e]))
                       (X.mul c v)))
                 (fold_left X.mul
                    (background_factors Event (pdfs_background s) e) b)))
       var).
Proof.
  rewrite !logpointsource_with_events, event_loop_snoc. f_equal.
  unfold pointsource_init. cbn [fst].
  exact (map_map (fun v => X.mul c v) _ var).
Qed.

(** *** Events without densities *)

Lemma no_density_step {Event : Type} (s : Sample Event) b ra dec vt ns ll e :
  no_density s ->
  event_step Event s b ra dec vt (ns, ll) e =
  (ns, map2 X.add ll (map (fun x => X.log (X.add (X.add (Fin 0) x) b)) ns)).
Proof.
  intros [Hs Hb]. rewrite event_step_eq, Hs, Hb. cbn. now rewrite map_id.
Qed.

Lemma no_density_loop {Event : Type} (s : Sample Event) b c ra dec vt
  (var : list R) (evts : list Event) (g : R -> R) :
  no_density s -> Forall (fun v => 0 < c * v + b) var ->
  fold_left (event_step Event s (Fin b) ra dec vt) evts
    (map (fun v => Fin (c * v)) var, map (fun v => Fin (g v)) var) =
  (map (fun v => Fin (c * v)) var,
   map (fun v => Fin (g v + INR (length evts) * ln (c * v + b))) var).
Proof.
  intros Hs Hpos. revert g; induction evts as [|e evts IH]; intros g.
  - simpl. f_equal. apply map_ext; intros v. f_equal. lra.
  - cbn [fold_left]. rewrite (no_density_step s) by exact Hs.
    assert (Hstep :
              map2 X.add (map (fun v => Fin (g v)) var)
                (map (fun x => X.log (X.add (X.add (Fin 0) x) (Fin b)))
                   (map (fun v => Fin (c * v)) var)) =
              map (fun v => Fin (g v + ln (c * v + b))) var).
    { rewrite map_map, map2_map_map. apply map_ext_in. intros v Hv.
      rewrite Forall_forall in Hpos. specialize (Hpos v Hv).
      simpl. replace (0 + c * v + b) with (c * v + b) by lra.
      destruct (Rlt_dec 0 (c * v + b)) as [_|H]; [reflexivity | contradiction]. }
    rewrite Hstep. pose proof (IH (fun v => g v + ln (c * v + b))) as IHg.
    cbv beta in IHg. etransitivity; [exact IHg|]. f_equal.
    apply map_ext; intros v. f_equal.
    change (length (e :: evts)) with (S (length evts)). rewrite S_INR. lra.
Qed.

Lemma pointsource_init_real n b c (var : list R) :
  (0 <= n)%Z -> Forall (fun v => 0 < c * v + b) var ->
  pointsource_init n (Fin b) (Fin c) (map Fin var) =
  (map (fun v => Fin (c * v)) var,
   map (fun v => Fin (- (b + c * v) + - ln (INR (fact (Z.to_nat n))))) var).
Proof.
  intros Hn Hpos. unfold pointsource_init, where_else_neginf. cbn zeta.
  rewrite !map_map, map2_map_map. f_equal.
  apply map_ext_in. intros v Hv. rewrite Forall_forall in Hpos.
  specialize (Hpos v Hv). rewrite (gammaln_succ n Hn). simpl.
  destruct (Rlt_dec 0 (b + c * v)) as [_|H]; [reflexivity | lra].
Qed.

(** X8: a sample that lists its events but carries no density gives the pure
    Poisson log-likelihood when it lists as many events as were observed
    (real input, positive expected count on the whole grid). *)
Theorem logpointsource_no_density {Event : Type}
  (s : Sample Event) (evts : list Event) (n : Z) (b c : R) (ra dec : xreal)
  (var : list R) (other : option dict) :
  events s = Some evts -> no_density s ->
  (0 <= n)%Z -> length evts = Z.to_nat n ->
  Forall (fun v => 0 < c * v + b) var ->
  logpointsource_one_sample s n (Fin b) (Fin c) ra dec (map Fin var) other =
  logpoisson_one_sample n (Fin b) (Fin c) (map Fin var).
Proof.
  intros Hev Hs Hn Hlen Hpos.
  rewrite (logpoisson_one_sample_real n b c var Hn).
  unfold logpointsource_one_sample. rewrite Hev. cbn zeta.
  change (snd (fold_left (event_step Event s (Fin b) ra dec (var_time other)) evts
                 (pointsource_init n (Fin b) (Fin c) (map Fin var))) =
          map (logpoisson_closed n b c) var).
  rewrite pointsource_init_real, no_density_loop by assumption. cbn [snd].
  apply map_ext_in. intros v Hv. rewrite Forall_forall in Hpos.
  specialize (Hpos v Hv). unfold logpoisson_closed.
  destruct (Rlt_dec 0 (c * v + b)) as [_|H]; [|contradiction].
  f_equal.
  replace (INR (length evts)) with (IZR n)
    by (now rewrite Hlen, INR_IZR_INZ, Z2Nat.id).
  lra.
Qed.

Lemma logpointsource_no_density_witness :
  logpointsource_one_sample one_bare_event 1 (Fin 1) (Fin 2) (Fin 0) (Fin 0)
    (map Fin [1; 2]) None =
  logpoisson_one_sample 1 (Fin 1) (Fin 2) (map Fin [1; 2]).
Proof.
  apply (logpointsource_no_density one_bare_event [tt] 1 1 2 (Fin 0) (Fin 0)
           [1; 2] None).
  - reflexivity.
  - split; reflexivity.
  - lia.
  - reflexivity.
  - repeat constructor; lra.
Defined.

(** ** Further results on priors.py *)

Lemma invsqrt_real_pointwise (var : list R) :
  Forall (fun v => v <> 0) var ->
  invsqrt (map Fin var) =
  map (fun v => if Rlt_dec 0 v then Fin (/ R_sqrt.sqrt v) else NaN) var.
Proof.
  intros Hvar. unfold invsqrt. rewrite map_map. apply map_ext_in. intros v Hv.
  rewrite Forall_forall in Hvar. specialize (Hvar v Hv). simpl.
  destruct (Rlt_dec v 0) as [Hneg|Hnneg].
  - destruct (Rlt_dec 0 v) as [H|_]; [lra | reflexivity].
  - destruct (Rlt_dec 0 v) as [Hpos|H]; [|lra]. simpl.
    assert (Hs : 0 < R_sqrt.sqrt v) by now apply sqrt_lt_R0.
    destruct (Req_dec_T (R_sqrt.sqrt v) 0) as [Hz|_]; [lra|].
    f_equal. unfold Rdiv. apply Rmult_1_l.
Qed.

(** X9: on a real grid without a zero entry [invsqrt] is [1/sqrt(v)] at a
    positive trial value and NaN at a negative one; no exception is raised. *)
Theorem invsqrt_edge_cases (var : list R) :
  Forall (fun v => v <> 0) var ->
  invsqrt (map Fin var) =
  map (fun v => if Rlt_dec 0 v then Fin (/ R_sqrt.sqrt v) else NaN) var.
Proof. exact (invsqrt_real_pointwise var). Qed.

Lemma invsqrt_edge_cases_witness :
  invsqrt (map Fin [4; -1]) =
  map (fun v => if Rlt_dec 0 v then Fin (/ R_sqrt.sqrt v) else NaN) [4; -1].
Proof.
  apply (invsqrt_edge_cases [4; -1]). repeat constructor; lra.
Defined.

Lemma jeffrey_tmp_short var bkg conv :
  (length conv < length bkg)%nat -> jeffrey_tmp var bkg conv = Raise IndexError.
Proof.
  revert conv; induction bkg as [|b bkg IH]; intros conv Hlen; simpl in *; [lia|].
  destruct conv as [|c conv]; [reflexivity|].
  rewrite IH by (simpl in Hlen; lia). reflexivity.
Qed.

Lemma jeffrey_tmp_firstn var bkg conv :
  jeffrey_tmp var bkg (firstn (length bkg) conv) = jeffrey_tmp var bkg conv.
Proof.
  revert conv; induction bkg as [|b bkg IH]; intros conv; [reflexivity|].
  destruct conv as [|c conv]; [reflexivity|].
  cbn [length firstn jeffrey_tmp]. now rewrite IH.
Qed.

(** X10: [jeffrey_poisson] reads [conv] at the indices of [bkg]: a shorter
    [conv] raises [IndexError], and the entries of a longer one beyond the
    length of [bkg] are ignored. *)
Theorem jeffrey_poisson_length_mismatch (var bkg conv : ndarray) :
  ((length conv < length bkg)%nat ->
   jeffrey_poisson var bkg conv = Raise IndexError) /\
  jeffrey_poisson var bkg (firstn (length bkg) conv) = jeffrey_poisson var bkg conv.
Proof.
  unfold jeffrey_poisson. split.
  - intros Hlen. now rewrite jeffrey_tmp_short.
  - now rewrite jeffrey_tmp_firstn.
Qed.

Lemma jeffrey_poisson_length_mismatch_witness :
  jeffrey_poisson [Fin 1] [Fin 1; Fin 2] [Fin 1] = Raise IndexError.
Proof.
  apply (proj1 (jeffrey_poisson_length_mismatch [Fin 1] [Fin 1; Fin 2] [Fin 1])).
  simpl. lia.
Defined.

Lemma forallb_false {A : Type} (f : A -> bool) l :
  forallb f l = false -> exists x, In x l /\ f x = false.
Proof.
  induction l as [|x l IH]; simpl; [discriminate|].
  destruct (f x) eqn:Hx; simpl.
  - intros H. destruct (IH H) as (y & Hy & Hfy). exists y. auto.
  - intros _. exists x. auto.
Qed.

(** The kind of each entry of [tmp]: an array of the grid's length for a
    conversion factor [> 0], the integer 0 otherwise. *)
Lemma jeffrey_tmp_kinds var bkg conv :
  (length bkg <= length conv)%nat ->
  exists tmp,
    jeffrey_tmp var bkg conv = Ok tmp /\
    Forall2 (fun c t =>
               if X.gt0 c then exists a, t = Array a /\ length a = length var
               else t = Scalar (Fin 0))
      (firstn (length bkg) conv) tmp.
Proof.
  revert conv; induction bkg as [|b bkg IH]; intros conv Hlen.
  - exists []. split; [reflexivity | constructor].
  - destruct conv as [|c conv]; [simpl in Hlen; lia|].
    destruct (IH conv) as (tmp & Htmp & Hk); [simpl in Hlen; lia|].
    cbn [jeffrey_tmp length firstn]. rewrite Htmp. cbn [bind].
    eexists. split; [reflexivity|]. constructor; [|exact Hk].
    destruct (X.gt0 c); [|reflexivity].
    eexists. split; [reflexivity | apply length_map].
Qed.

Lemma Forall2_In_l {A B : Type} (P : A -> B -> Prop) l m x :
  Forall2 P l m -> In x l -> exists y, In y m /\ P x y.
Proof.
  induction 1 as [|a b l m Hab _ IH]; simpl; [tauto|].
  intros [<- | Hx]; [exists b; auto|].
  destruct (IH Hx) as (y & Hy & Hxy). exists y. auto.
Qed.

Lemma np_sum_axis0_all_arrays n (l : ndarray) tmp :
  Forall2 (fun c t =>
             if X.gt0 c then exists a, t = Array a /\ length a = n
             else t = Scalar (Fin 0)) l tmp ->
  forallb X.gt0 l = true -> exists total, np_sum_axis0 tmp = Ok total.
Proof.
  intros Hk Hall.
  assert (Hrows : exists rows, tmp = map Array rows /\
                               Forall (fun a => length a = n) rows).
  { induction Hk as [|c t l tmp Hct _ IH]; [exists []; split; constructor|].
    simpl in Hall. apply andb_prop in Hall as [Hc Hl]. rewrite Hc in Hct.
    destruct Hct as (a & -> & Ha). destruct (IH Hl) as (rows & -> & Hrows).
    exists (a :: rows). split; [reflexivity | now constructor]. }
  destruct Hrows as (rows & -> & Hrows).
  destruct rows as [|a rows]; [eexists; reflexivity|].
  inversion Hrows as [|? ? Ha Hrest]; subst. cbn [map np_sum_axis0].
  rewrite arrays_of_map by exact Hrest. eexists; reflexivity.
Qed.

Lemma np_sum_axis0_all_scalars n (l : ndarray) tmp :
  Forall2 (fun c t =>
             if X.gt0 c then exists a, t = Array a /\ length a = n
             else t = Scalar (Fin 0)) l tmp ->
  existsb X.gt0 l = false -> exists total, np_sum_axis0 tmp = Ok total.
Proof.
  intros Hk Hnone.
  assert (Hxs : exists xs, tmp = map Scalar xs).
  { induction Hk as [|c t l tmp Hct _ IH]; [now exists []|].
    simpl in Hnone. apply orb_false_elim in Hnone as [Hc Hl]. rewrite Hc in Hct.
    subst t. destruct (IH Hl) as (xs & ->). now exists (Fin 0 :: xs). }
  destruct Hxs as (xs & ->).
  destruct xs as [|x xs]; [eexists; reflexivity|].
  cbn [map np_sum_axis0]. rewrite scalars_of_map. eexists; reflexivity.
Qed.

Lemma jeffrey_poisson_ok_iff var bkg conv :
  (exists w, jeffrey_poisson var bkg conv = Ok w) <->
  (length bkg <= length conv)%nat /\
  (forallb X.gt0 (firstn (length bkg) conv) = true \/
   existsb X.gt0 (firstn (length bkg) conv) = false).
Proof.
  unfold jeffrey_poisson. split.
  - intros [w Hw].
    destruct (Nat.le_gt_cases (length bkg) (length conv)) as [Hlen|Hlen];
      [|rewrite jeffrey_tmp_short in Hw by exact Hlen; discriminate].
    split; [exact Hlen|].
    destruct (jeffrey_tmp_kinds var bkg conv Hlen) as (tmp & Htmp & Hk).
    rewrite Htmp in Hw. cbn [bind] in Hw.
    destruct (forallb X.gt0 (firstn (length bkg) conv)) eqn:Hall; [now left|].
    destruct (existsb X.gt0 (firstn (length bkg) conv)) eqn:Hex; [|now right].
    exfalso.
    destruct (forallb_false _ _ Hall) as (c1 & Hc1 & Hg1).
    apply existsb_exists in Hex as (c2 & Hc2 & Hg2).
    destruct (Forall2_In_l _ _ _ _ Hk Hc1) as (t1 & Ht1 & Hk1).
    destruct (Forall2_In_l _ _ _ _ Hk Hc2) as (t2 & Ht2 & Hk2).
    rewrite Hg1 in Hk1. rewrite Hg2 in Hk2. destruct Hk2 as (a & -> & _).
    subst t1. rewrite (np_sum_axis0_ragged tmp (Fin 0) a Ht1 Ht2) in Hw.
    discriminate.
  - intros [Hlen Hsign].
    destruct (jeffrey_tmp_kinds var bkg conv Hlen) as (tmp & -> & Hk).
    cbn [bind].
    assert (Hsum : exists total, np_sum_axis0 tmp = Ok total).
    { destruct Hsign as [Hall | Hnone].
      - exact (np_sum_axis0_all_arrays _ _ _ Hk Hall).
      - exact (np_sum_axis0_all_scalars _ _ _ Hk Hnone). }
    destruct Hsum as (total & ->). cbn [bind]. eauto.
Qed.

(** X11: [signal_parameter] returns a value exactly when the prior is [flat]
    or [invsqrt], or is [jeffrey] with at least as many conversion factors as
    backgrounds and, among the conversion factors it reads, either all [> 0]
    or none [> 0]; in every other case it raises. *)
Theorem signal_parameter_returns_iff (var bkg conv : ndarray) (prior_type : string) :
  (exists w, signal_parameter var bkg conv prior_type = Ok w) <->
  prior_type = "flat"%string \/ prior_type = "invsqrt"%string \/
  (prior_type = "jeffrey"%string /\ (length bkg <= length conv)%nat /\
   (forallb X.gt0 (firstn (length bkg) conv) = true \/
    existsb X.gt0 (firstn (length bkg) conv) = false)).
Proof.
  unfold signal_parameter.
  destruct (String.eqb_spec prior_type "flat") as [->|Hf].
  { split; [auto | intros _; eexists; reflexivity]. }
  destruct (String.eqb_spec prior_type "jeffrey") as [->|Hj].
  { rewrite jeffrey_poisson_ok_iff. split; [auto|].
    intros [H | [H | [_ H]]]; [discriminate | discriminate | exact H]. }
  destruct (String.eqb_spec prior_type "invsqrt") as [->|Hi].
  { split; [auto | intros _; eexists; reflexivity]. }
  split; [intros [w Hw]; discriminate|].
  intros [H | [H | [H _]]]; contradiction.
Qed.

(** X12: whenever [signal_parameter] returns, the value broadcasts against the
    grid: it is a scalar or an array of exactly the grid's length, for every
    input, mismatched sample counts and non-finite entries included. *)
Theorem signal_parameter_broadcasts
  (var bkg conv : ndarray) (prior_type : string) (w : npval) :
  signal_parameter var bkg conv prior_type = Ok w ->
  match w with
  | Scalar _ => True
  | Array a => length a = length var
  end.
Proof. exact (signal_parameter_shaped var bkg conv prior_type w). Qed.

Lemma signal_parameter_broadcasts_witness :
  match Array (invsqrt [Fin 1; Fin 4]) with
  | Scalar _ => True
  | Array a => length a = length [Fin 1; Fin 4]
  end.
Proof.
  apply (signal_parameter_broadcasts [Fin 1; Fin 4] [Fin 1] [] "invsqrt").
  reflexivity.
Defined.

(** *** One sample: the closed form of the Jeffreys prior *)

Lemma jeffrey_single_value (b c v : R) :
  0 < c -> 0 < c * v + b ->
  X.sqrt (X.div (X.mul (Fin c) (Fin c)) (X.add (X.mul (Fin c) (Fin v)) (Fin b))) =
  Fin (c / R_sqrt.sqrt (c * v + b)).
Proof.
  intros Hc Hd. simpl.
  destruct (Req_dec_T (c * v + b) 0) as [H|_]; [lra|]. simpl.
  assert (Hq : 0 <= c * c / (c * v + b)).
  { apply Rmult_le_pos; [nra|]. left. now apply Rinv_0_lt_compat. }
  destruct (Rlt_dec (c * c / (c * v + b)) 0) as [H|_]; [lra|].
  f_equal. rewrite sqrt_div_alt by exact Hd.
  rewrite sqrt_square by lra. reflexivity.
Qed.

Lemma jeffrey_poisson_single_real (var : list R) (b c : R) :
  0 < c -> Forall (fun v => 0 < c * v + b) var ->
  jeffrey_poisson (map Fin var) [Fin b] [Fin c] =
  Ok (Array (map (fun v => Fin (c / R_sqrt.sqrt (c * v + b))) var)).
Proof.
  intros Hc Hpos. unfold jeffrey_poisson. cbn [jeffrey_tmp bind].
  rewrite gt0_pos by exact Hc.
  cbn [bind np_sum_axis0 arrays_of fold_left np_sqrt]. do 2 f_equal.
  rewrite !map_map. apply map_ext_in. intros v Hv.
  rewrite Forall_forall in Hpos. now apply jeffrey_single_value, Hpos.
Qed.

(** X13: with a single sample of positive conversion factor [c] and
    background [b], the Jeffreys prior at a trial value [v] of positive
    expected count is [c / sqrt(c*v + b)]. *)
Theorem jeffrey_poisson_single_sample (var : list R) (b c : R) :
  0 < c -> Forall (fun v => 0 < c * v + b) var ->
  jeffrey_poisson (map Fin var) [Fin b] [Fin c] =
  Ok (Array (map (fun v => Fin (c / R_sqrt.sqrt (c * v + b))) var)).
Proof. exact (jeffrey_poisson_single_real var b c). Qed.

Lemma jeffrey_poisson_single_sample_witness :
  jeffrey_poisson (map Fin [1; 2]) [Fin 1] [Fin 3] =
  Ok (Array (map (fun v => Fin (3 / R_sqrt.sqrt (3 * v + 1))) [1; 2])).
Proof.
  apply (jeffrey_poisson_single_sample [1; 2] 1 3); [lra|].
  repeat constructor; lra.
Defined.

(** X14: with a single sample, zero background and conversion factor [c > 0],
    the Jeffreys prior on a positive grid is [sqrt(c)] times the [invsqrt]
    prior. *)
Theorem jeffrey_is_scaled_invsqrt (var : list R) (c : R) :
  0 < c -> Forall (fun v => 0 < v) var ->
  jeffrey_poisson (map Fin var) [Fin 0] [Fin c] =
  Ok (Array (map (fun w => X.mul (Fin (R_sqrt.sqrt c)) w) (invsqrt (map Fin var)))).
Proof.
  intros Hc Hpos. rewrite jeffrey_poisson_single_real.
  - rewrite invsqrt_real_pointwise, map_map
      by (eapply Forall_impl; [|exact Hpos]; intros v Hv; simpl; lra).
    do 2 f_equal.
    apply map_ext_in. intros v Hv. rewrite Forall_forall in Hpos.
    specialize (Hpos v Hv).
    destruct (Rlt_dec 0 v) as [_|H]; [|contradiction]. simpl. f_equal.
    rewrite Rplus_0_r, sqrt_mult by lra.
    assert (Hsc : 0 < R_sqrt.sqrt c) by now apply sqrt_lt_R0.
    assert (Hsv : 0 < R_sqrt.sqrt v) by now apply sqrt_lt_R0.
    rewrite <- (sqrt_sqrt c) at 1 by lra. field. split; lra.
  - exact Hc.
  - eapply Forall_impl; [|exact Hpos]. intros v Hv. simpl. nra.
Qed.

Lemma jeffrey_is_scaled_invsqrt_witness :
  jeffrey_poisson (map Fin [1; 4]) [Fin 0] [Fin 2] =
  Ok (Array (map (fun w => X.mul (Fin (R_sqrt.sqrt 2)) w) (invsqrt (map Fin [1; 4])))).
Proof.
  apply (jeffrey_is_scaled_invsqrt [1; 4] 2); [lra|].
  repeat constructor; lra.
Defined.

(** *** Every conversion factor positive: the sum, grid point by grid point *)

Lemma fold_rows_pointwise {S : Type} (g : S -> xreal -> xreal) (l : list S)
  (h : xreal -> xreal) (var : ndarray) :
  fold_left (map2 X.add) (map (fun s => map (g s) var) l) (map h var) =
  map (fun v => fold_left (fun acc s => X.add acc (g s v)) l (h v)) var.
Proof.
  revert h; induction l as [|s l IH]; intros h; [reflexivity|].
  cbn [map fold_left]. rewrite map2_map_map.
  exact (IH (fun v => X.add (h v) (g s v))).
Qed.

Lemma fold_left_same {A B : Type} (f g : A -> B -> A) l a :
  (forall a x, f a x = g a x) -> fold_left f l a = fold_left g l a.
Proof.
  intros Hfg; revert a; induction l as [|x l IH]; intros a; simpl;
    [reflexivity | now rewrite Hfg, IH].
Qed.

Lemma jeffrey_tmp_all_gt0 var bkg conv :
  length bkg = length conv -> forallb X.gt0 conv = true ->
  jeffrey_tmp var bkg conv =
  Ok (map Array
        (map (fun '(b, c) =>
                map (fun v => X.div (X.mul c c) (X.add (X.mul c v) b)) var)
           (combine bkg conv))).
Proof.
  revert conv; induction bkg as [|b bkg IH]; intros [|c conv] Hlen Hall;
    try discriminate; [reflexivity|].
  simpl in Hall. apply andb_prop in Hall as [Hc Hrest].
  cbn [jeffrey_tmp]. rewrite Hc, IH by (simpl in Hlen; auto; lia). reflexivity.
Qed.

(** X25: when there is a sample and every conversion factor is [> 0],
    [jeffrey_poisson] returns the array that holds, at each trial value [v],
    the square root of the sum over the samples of
    [conv_i^2 / (conv_i * v + bkg_i)]. *)
Theorem jeffrey_poisson_all_positive_sum
  (var : ndarray) (b0 c0 : xreal) (bkg conv : ndarray) :
  length bkg = length conv -> forallb X.gt0 (c0 :: conv) = true ->
  jeffrey_poisson var (b0 :: bkg) (c0 :: conv) =
  Ok (Array
        (map (fun v =>
                X.sqrt
                  (fold_left
                     (fun acc '(b, c) =>
                        X.add acc (X.div (X.mul c c) (X.add (X.mul c v) b)))
                     (combine bkg conv)
                     (X.div (X.mul c0 c0) (X.add (X.mul c0 v) b0))))
           var)).
Proof.
  intros Hlen Hall. unfold jeffrey_poisson.
  rewrite jeffrey_tmp_all_gt0 by (simpl; auto). cbn [bind combine map np_sum_axis0].
  rewrite arrays_of_map.
  - cbn [bind np_sqrt]. do 2 f_equal.
    rewrite (map_ext _
               (fun s => map ((fun '(b, c) v =>
                                 X.div (X.mul c c) (X.add (X.mul c v) b)) s) var))
      by (intros [b c]; reflexivity).
    rewrite (fold_rows_pointwise
               (fun '(b, c) v => X.div (X.mul c c) (X.add (X.mul c v) b))
               (combine bkg conv)
               (fun v => X.div (X.mul c0 c0) (X.add (X.mul c0 v) b0)) var).
    rewrite map_map. apply map_ext; intros v. f_equal.
    apply fold_left_same. intros acc [b c]. reflexivity.
  - apply Forall_map, Forall_forall. intros [b c] _. now rewrite !length_map.
Qed.

Lemma jeffrey_poisson_all_positive_sum_witness :
  jeffrey_poisson [Fin 1; Fin 2] [Fin 1; Fin 3] [Fin 2; Fin 5] =
  Ok (Array
        (map (fun v =>
                X.sqrt
                  (fold_left
                     (fun acc '(b, c) =>
                        X.add acc (X.div (X.mul c c) (X.add (X.mul c v) b)))
                     (combine [Fin 3] [Fin 5])
                     (X.div (X.mul (Fin 2) (Fin 2)) (X.add (X.mul (Fin 2) v) (Fin 1)))))
           [Fin 1; Fin 2])).
Proof.
  apply (jeffrey_poisson_all_positive_sum [Fin 1; Fin 2] (Fin 1) (Fin 2)
           [Fin 3] [Fin 5]); [reflexivity|].
  cbn [forallb]. rewrite !gt0_pos by lra. reflexivity.
Defined.

(** ** Further results on posteriors.py *)

Lemma logspace_cases (r : grid_range) :
  ((range_count r < 0)%Z /\ logspace r = Raise ValueError) \/
  ((0 <= range_count r)%Z /\
   logspace r =
   Ok (map (fun e => Fin (Rpower 10 e))
         (linspace_points (fst (fst r)) (snd (fst r)) (Z.to_nat (range_count r))))).
Proof.
  destruct r as [[start stop] num]. unfold logspace, linspace, range_count.
  cbn [fst snd]. destruct (Z.ltb_spec num 0) as [H|H]; [left | right]; auto.
Qed.

Lemma length_linspace_points start stop n :
  length (linspace_points start stop n) = n.
Proof. unfold linspace_points. now rewrite length_map, length_seq. Qed.

Section PosteriorEdges.

Context {Detector GW GWToy : Type}.
Variable mkAnalysis : GW -> Detector -> Parameters -> Analysis GWToy.
Variable add_gw_variables : Analysis GWToy -> list string -> Analysis GWToy.

Lemma toys_loop_length (to_nsig : Toy GWToy -> ndarray) prior_type x_arr ts
  post_arr post_arr' :
  length post_arr = length x_arr ->
  toys_loop to_nsig prior_type x_arr ts post_arr = Ok post_arr' ->
  length post_arr' = length x_arr.
Proof.
  revert post_arr; induction ts as [|toy ts IH]; intros post Hlen; cbn [toys_loop].
  - now intros [= <-].
  - destruct (signal_parameter x_arr (nbackground (snd toy)) (to_nsig toy)
                prior_type) as [w|e] eqn:Hw; cbn [bind]; [|discriminate].
    apply IH. unfold iadd. rewrite length_map2; [exact Hlen|].
    rewrite length_np_mul_array; rewrite length_poisson_several_samples;
      [congruence | now apply signal_parameter_shaped in Hw].
Qed.

(** X15: a negative count in the range of a posterior makes it raise
    [ValueError], before any toy is looked at. *)
Theorem posterior_negative_count
  (detector : Detector) (gw : GW) (parameters : Parameters) :
  ((range_count (range_flux parameters) < 0)%Z ->
   compute_flux_posterior mkAnalysis detector gw parameters = Raise ValueError) /\
  ((range_count (range_etot parameters) < 0)%Z ->
   compute_etot_posterior mkAnalysis add_gw_variables detector gw parameters =
   Raise ValueError) /\
  ((range_count (range_fnu parameters) < 0)%Z ->
   compute_fnu_posterior mkAnalysis add_gw_variables detector gw parameters =
   Raise ValueError).
Proof.
  unfold compute_flux_posterior, compute_etot_posterior, compute_fnu_posterior.
  repeat split; intros Hneg.
  - destruct (logspace_cases (range_flux parameters)) as [[_ ->] | [H _]];
      [reflexivity | lia].
  - destruct (logspace_cases (range_etot parameters)) as [[_ ->] | [H _]];
      [reflexivity | lia].
  - destruct (logspace_cases (range_fnu parameters)) as [[_ ->] | [H _]];
      [reflexivity | lia].
Qed.

(** X16: when a posterior returns, its grid has as many points as the count
    of its range and the curve has the length of the grid. *)
Theorem posterior_lengths
  (detector : Detector) (gw : GW) (parameters : Parameters) (x post : ndarray) :
  (compute_flux_posterior mkAnalysis detector gw parameters = Ok (x, post) ->
   length x = Z.to_nat (range_count (range_flux parameters)) /\
   length post = length x) /\
  (compute_etot_posterior mkAnalysis add_gw_variables detector gw parameters =
   Ok (x, post) ->
   length x = Z.to_nat (range_count (range_etot parameters)) /\
   length post = length x) /\
  (compute_fnu_posterior mkAnalysis add_gw_variables detector gw parameters =
   Ok (x, post) ->
   length x = Z.to_nat (range_count (range_fnu parameters)) /\
   length post = length x).
Proof.
  unfold compute_flux_posterior, compute_etot_posterior, compute_fnu_posterior.
  split; [|split].
  all: match goal with
       | |- context [logspace ?r] =>
           destruct (logspace_cases r) as [[_ ->] | [_ ->]]; cbn [bind];
           [discriminate|]
       end.
  all: match goal with
       | |- context [toys_loop ?f ?p ?g ?ts ?z] =>
           destruct (toys_loop f p g ts z) as [post'|e] eqn:Hloop; cbn [bind];
           [|discriminate]
       end.
  all: intros [= <- <-].
  all: split; [now rewrite length_map, length_linspace_points|].
  all: eapply toys_loop_length; [|exact Hloop]; apply length_map.
Qed.


Lemma signal_parameter_unknown var bkg conv prior_type :
  ~ recognised prior_type ->
  signal_parameter var bkg conv prior_type =
  Raise (RuntimeError ("Unknown prior type " ++ prior_type)).
Proof.
  intros Hprior. unfold signal_parameter, recognised in *.
  destruct (String.eqb_spec prior_type "flat"); [tauto|].
  destruct (String.eqb_spec prior_type "jeffrey"); [tauto|].
  destruct (String.eqb_spec prior_type "invsqrt"); [tauto|]. reflexivity.
Qed.

Lemma iadd_swap (post a b : ndarray) :
  iadd (iadd post a) b = iadd (iadd post b) a.
Proof.
  unfold iadd. revert a b; induction post as [|p post IH]; intros [|x a] [|y b];
    simpl; try reflexivity.
  f_equal; [|apply IH].
  rewrite !XFacts.add_assoc. f_equal. apply XFacts.add_comm.
Qed.

Lemma toys_loop_perm (to_nsig : Toy GWToy -> ndarray) prior_type x_arr ts ts'
  post_arr post_arr' :
  Permutation ts ts' ->
  toys_loop to_nsig prior_type x_arr ts post_arr = Ok post_arr' ->
  toys_loop to_nsig prior_type x_arr ts' post_arr = Ok post_arr'.
Proof.
  intros Hp; revert post_arr; induction Hp; intros post.
  - auto.
  - cbn [toys_loop]. destruct (signal_parameter _ _ _ _); cbn [bind];
      [apply IHHp | discriminate].
  - cbn [toys_loop].
    destruct (signal_parameter x_arr (nbackground (snd y)) (to_nsig y) prior_type)
      as [wy|ey] eqn:Hy; cbn [bind]; [|discriminate].
    destruct (signal_parameter x_arr (nbackground (snd x)) (to_nsig x) prior_type)
      as [wx|ex] eqn:Hx; cbn [bind]; [|discriminate].
    now rewrite iadd_swap.
  - intros H. apply IHHp2, IHHp1, H.
Qed.

(** X17: a posterior over an empty toy ensemble is the zero curve on its grid,
    and [signal_parameter] is never called: even an unknown prior name raises
    nothing. *)
Theorem posterior_without_toys
  (detector : Detector) (gw : GW) (parameters : Parameters) :
  toys (mkAnalysis gw detector parameters) = [] ->
  compute_flux_posterior mkAnalysis detector gw parameters =
  x_arr <- logspace (range_flux parameters) ;; Ok (x_arr, zeros_like x_arr).
Proof.
  intros Hts. unfold compute_flux_posterior. rewrite Hts.
  destruct (logspace (range_flux parameters)); reflexivity.
Qed.

(** X18: with a grid of non-negative count and at least one toy, an unknown
    prior name makes the flux posterior raise [RuntimeError]. *)
Theorem posterior_unknown_prior
  (detector : Detector) (gw : GW) (parameters : Parameters) :
  (0 <= range_count (range_flux parameters))%Z ->
  toys (mkAnalysis gw detector parameters) <> [] ->
  ~ recognised (prior_signal parameters) ->
  compute_flux_posterior mkAnalysis detector gw parameters =
  Raise (RuntimeError ("Unknown prior type " ++ prior_signal parameters)).
Proof.
  intros Hnum Hts Hprior. unfold compute_flux_posterior.
  destruct (logspace_cases (range_flux parameters)) as [[H _] | [_ ->]]; [lia|].
  cbn [bind]. destruct (toys (mkAnalysis gw detector parameters)) as [|toy ts];
    [contradiction|].
  cbn [toys_loop]. now rewrite signal_parameter_unknown.
Qed.

(** X19: a flux posterior that returns does not depend on the order of the
    toys: for two analyses with the same conversion function and the same
    toys up to order, one returns a grid and a curve exactly when the other
    returns them. *)
Theorem posterior_toy_order
  (mkAnalysis' : GW -> Detector -> Parameters -> Analysis GWToy)
  (detector : Detector) (gw : GW) (parameters : Parameters)
  (res : ndarray * ndarray) :
  phi_to_nsig (mkAnalysis gw detector parameters) =
  phi_to_nsig (mkAnalysis' gw detector parameters) ->
  Permutation (toys (mkAnalysis gw detector parameters))
              (toys (mkAnalysis' gw detector parameters)) ->
  compute_flux_posterior mkAnalysis detector gw parameters = Ok res <->
  compute_flux_posterior mkAnalysis' detector gw parameters = Ok res.
Proof.
  intros Hconv Hperm. unfold compute_flux_posterior. rewrite Hconv.
  destruct (logspace (range_flux parameters)) as [x_arr|e]; cbn [bind];
    [|tauto].
  split.
  - destruct (toys_loop _ _ x_arr (toys (mkAnalysis gw detector parameters)) _)
      as [post|e] eqn:Hloop; cbn [bind]; [|discriminate].
    now rewrite (toys_loop_perm _ _ _ _ _ _ _ Hperm Hloop).
  - destruct (toys_loop _ _ x_arr (toys (mkAnalysis' gw detector parameters)) _)
      as [post|e] eqn:Hloop; cbn [bind]; [|discriminate].
    now rewrite (toys_loop_perm _ _ _ _ _ _ _ (Permutation_sym Hperm) Hloop).
Qed.

End PosteriorEdges.

Lemma posterior_negative_count_witness :
  compute_flux_posterior (fixed_analysis [one_toy] [Fin 1]) tt tt
    (parameters_with "flat" (0, 1, -1)%Z) = Raise ValueError.
Proof.
  apply (proj1 (posterior_negative_count (fixed_analysis [one_toy] [Fin 1])
                  (fun ana _ => ana) tt tt (parameters_with "flat" (0, 1, -1)%Z))).
  simpl. lia.
Defined.

Lemma posterior_lengths_witness :
  exists x post,
    compute_flux_posterior (fixed_analysis [] [Fin 1]) tt tt
      (parameters_with "flat" (0, 1, 2)%Z) = Ok (x, post) /\
    length x = Z.to_nat 2 /\ length post = length x.
Proof.
  eexists. eexists. split; [reflexivity|].
  apply (proj1 (posterior_lengths (fixed_analysis [] [Fin 1]) (fun ana _ => ana)
                  tt tt (parameters_with "flat" (0, 1, 2)%Z) _ _)).
  reflexivity.
Defined.

Lemma posterior_without_toys_witness :
  compute_flux_posterior (fixed_analysis [] [Fin 1]) tt tt
    (parameters_with "gaussian" (0, 1, 2)%Z) =
  x_arr <- logspace (0, 1, 2)%Z ;; Ok (x_arr, zeros_like x_arr).
Proof.
  apply (posterior_without_toys (fixed_analysis [] [Fin 1]) tt tt
           (parameters_with "gaussian" (0, 1, 2)%Z)).
  reflexivity.
Defined.

Lemma posterior_unknown_prior_witness :
  compute_flux_posterior (fixed_analysis [one_toy] [Fin 1]) tt tt
    (parameters_with "gaussian" (0, 1, 2)%Z) =
  Raise (RuntimeError "Unknown prior type gaussian").
Proof.
  apply (posterior_unknown_prior (fixed_analysis [one_toy] [Fin 1]) tt tt
           (parameters_with "gaussian" (0, 1, 2)%Z)).
  - simpl. lia.
  - discriminate.
  - intros [H | [H | H]]; discriminate.
Defined.

Lemma posterior_toy_order_witness :
  exists res,
    compute_flux_posterior
      (fixed_analysis
         [one_toy; (tt, {| nobserved := [1%Z]; nbackground := [Fin 1] |})]
         [Fin 1]) tt tt (parameters_with "flat" (0, 1, 2)%Z) = Ok res /\
    compute_flux_posterior
      (fixed_analysis
         [(tt, {| nobserved := [1%Z]; nbackground := [Fin 1] |}); one_toy]
         [Fin 1]) tt tt (parameters_with "flat" (0, 1, 2)%Z) = Ok res.
Proof.
  eexists. split; [reflexivity|].
  apply (posterior_toy_order
           (fixed_analysis
              [one_toy; (tt, {| nobserved := [1%Z]; nbackground := [Fin 1] |})]
              [Fin 1])
           (fixed_analysis
              [(tt, {| nobserved := [1%Z]; nbackground := [Fin 1] |}); one_toy]
              [Fin 1])
           tt tt (parameters_with "flat" (0, 1, 2)%Z)).
  - reflexivity.
  - apply perm_swap.
  - reflexivity.
Defined.

(** ** Results on parameters.py *)

Lemma split_on_nonempty sep s : split_on sep s <> [].
Proof.
  destruct s as [|c s]; simpl; [discriminate|].
  destruct (Ascii.eqb c sep); [discriminate|].
  destruct (split_on sep s); discriminate.
Qed.

Lemma split_on_no_sep sep t : occurs sep t = false -> split_on sep t = [t].
Proof.
  induction t as [|c t IH]; simpl; [reflexivity|].
  destruct (Ascii.eqb c sep); [discriminate|].
  intros H. now rewrite (IH H).
Qed.

Lemma split_on_prefix sep p q :
  occurs sep p = false ->
  split_on sep (p ++ String sep q) = p :: split_on sep q.
Proof.
  induction p as [|c p IH]; simpl.
  - intros _. now rewrite Ascii.eqb_refl.
  - destruct (Ascii.eqb c sep); [discriminate|].
    intros H. now rewrite (IH H).
Qed.

Lemma split_on_suffix sep p t :
  occurs sep t = false ->
  split_on sep (p ++ String sep t) = split_on sep p ++ [t].
Proof.
  intros Ht. induction p as [|c p IH]; simpl.
  - rewrite Ascii.eqb_refl. now rewrite split_on_no_sep.
  - destruct (Ascii.eqb c sep); [now rewrite IH|].
    rewrite IH. destruct (split_on sep p) as [|w ws] eqn:Hp; [|reflexivity].
    now destruct (split_on_nonempty sep p).
Qed.

Lemma string_app_assoc (a b c : string) : ((a ++ b) ++ c = a ++ (b ++ c))%string.
Proof. induction a as [|x a IH]; simpl; [reflexivity | now rewrite IH]. Qed.

Lemma join_cons sep w ws :
  ws <> [] -> join sep (w :: ws) = (w ++ String sep (join sep ws))%string.
Proof. destruct ws; [contradiction | reflexivity]. Qed.

Lemma join_split_on sep s : join sep (split_on sep s) = s.
Proof.
  induction s as [|c s IH]; [reflexivity|]. cbn [split_on].
  destruct (Ascii.eqb_spec c sep) as [->|Hc].
  - rewrite join_cons by apply split_on_nonempty. now rewrite IH.
  - destruct (split_on sep s) as [|w ws] eqn:Hs;
      [now destruct (split_on_nonempty sep s)|].
    rewrite <- IH. destruct ws; reflexivity.
Qed.

Lemma join_snoc sep init t :
  init <> [] -> join sep (init ++ [t]) = (join sep init ++ String sep t)%string.
Proof.
  induction init as [|w init IH]; [contradiction|]. intros _.
  destruct init as [|w' init]; [reflexivity|].
  change ((w :: w' :: init) ++ [t]) with (w :: ((w' :: init) ++ [t])).
  rewrite join_cons by (simpl; discriminate).
  rewrite IH by discriminate.
  rewrite (join_cons sep w (w' :: init)) by discriminate.
  now rewrite string_app_assoc.
Qed.

Lemma last_split_on sep s t :
  last (split_on sep s) EmptyString = t ->
  s = t \/ exists p, s = (p ++ String sep t)%string.
Proof.
  intros Hlast.
  assert (Hs := app_removelast_last EmptyString (split_on_nonempty sep s)).
  rewrite Hlast in Hs. rewrite <- (join_split_on sep s), Hs.
  destruct (removelast (split_on sep s)) as [|w init] eqn:Hinit.
  - left. reflexivity.
  - right. exists (join sep (w :: init)). apply join_snoc. discriminate.
Qed.

(** X22: zero-acceptance pixels are excluded exactly when the search-region
    string is [excludezero] or ends in [_excludezero]. *)
Theorem iszeroincluded_false_iff (search_region : string) :
  get_searchregion_iszeroincluded search_region = false <->
  search_region = "excludezero"%string \/
  exists p, search_region = (p ++ "_excludezero")%string.
Proof.
  unfold get_searchregion_iszeroincluded. cbn zeta. split.
  - destruct (String.eqb_spec (last (split_on "_" search_region) EmptyString)
                "excludezero") as [Hlast|_]; [|discriminate].
    intros _. exact (last_split_on "_" search_region "excludezero" Hlast).
  - intros [-> | [p ->]].
    + reflexivity.
    + change (p ++ "_excludezero")%string
        with (p ++ String "_" "excludezero")%string.
      rewrite split_on_suffix by reflexivity. now rewrite last_last.
Qed.

(** X23: a search region [region_<t>], with or without further [_]-separated
    fields after [<t>], has the fraction [float(<t>) / 100], and raises
    [ValueError] when [<t>] is not a number; the later fields are not read. *)
Theorem gwfraction_region
  (float_of_string : string -> option xreal) (t suffix : string) :
  occurs "_" t = false ->
  suffix = EmptyString \/ (exists r, suffix = String "_" r) ->
  get_searchregion_gwfraction float_of_string ("region_" ++ t ++ suffix) =
  match float_of_string t with
  | Some f => Ok (Some (X.div f (Fin 100)))
  | None => Raise ValueError
  end.
Proof.
  intros Ht Hsuffix. unfold get_searchregion_gwfraction. cbn zeta.
  change ("region_" ++ t ++ suffix)%string
    with ("region" ++ String "_" (t ++ suffix))%string.
  rewrite split_on_prefix by reflexivity.
  destruct Hsuffix as [-> | [r ->]].
  - replace (t ++ "")%string with t
      by (clear; induction t as [|c t IH]; simpl; [reflexivity | now rewrite <- IH]).
    rewrite split_on_no_sep by exact Ht. reflexivity.
  - rewrite split_on_prefix by exact Ht. reflexivity.
Qed.

Lemma gwfraction_region_witness :
  get_searchregion_gwfraction (fun _ => Some (Fin 90))
    ("region_" ++ "90" ++ "_excludezero") =
  Ok (Some (X.div (Fin 90) (Fin 100))).
Proof.
  apply (gwfraction_region (fun _ => Some (Fin 90)) "90" "_excludezero").
  - reflexivity.
  - right. now exists "excludezero"%string.
Defined.

(** X24: a search region without any [_] never raises and never reads a
    number: it is the fraction 0 for [bestfit] and [None] for every other
    string, [fullsky] and [region] included. *)
Theorem gwfraction_single_word
  (float_of_string : string -> option xreal) (search_region : string) :
  occurs "_" search_region = false ->
  get_searchregion_gwfraction float_of_string search_region =
  if String.eqb search_region "bestfit" then Ok (Some (Fin 0)) else Ok None.
Proof.
  intros Hs. unfold get_searchregion_gwfraction. cbn zeta.
  rewrite split_on_no_sep by exact Hs.
  destruct (String.eqb search_region "bestfit"); [reflexivity|].
  destruct (String.eqb search_region "fullsky"); reflexivity.
Qed.

Lemma gwfraction_single_word_witness :
  get_searchregion_gwfraction (fun _ => None) "region" = Ok None.
Proof.
  apply (gwfraction_single_word (fun _ => None) "region"). reflexivity.
Defined.
